(** * Quantization notebook: uniform symmetric quantization, VQ, PQ and
      lookup-table dot products.

    A shallow embedding of the code cells of [presentation.ipynb].

    Number model.  The notebook computes on float32 arrays.  A finite
    floating point value is embedded as the rational it denotes ([Q]); a
    quotient or a scale is an [fval], a finite rational, an infinity or
    NaN.  The quantizer is given twice.  [quantize_symmetric] and
    [dequantize_symmetric] compute in exact arithmetic: the worked sample
    and the one-bit case are stated on them.  [F32.quantize_symmetric] and
    [F32.dequantize_symmetric] round every quotient and product to float32,
    underflow and overflow included, and follow Python's arithmetic on
    [num_bits] with its OverflowError: the range of the codes, the
    round-trip error and the missing checks are stated on them.  The VQ, PQ
    and lookup cells compute in exact arithmetic.  The sign of a zero is
    not tracked.  Python integers are [Z]; an int8 array entry is a [Z] in
    [-128, 127].  Input matrices hold finite values and are given by their
    rows.

    Effects.  A cell returns a value or raises: [result] carries the
    exception.  NumPy's warnings (division by zero, overflow, invalid cast)
    are not exceptions and are not modelled.

    Library calls.  [KMeans.fit] and [KMeans.predict] are scikit-learn's:
    the cells take them as parameters.  [predict_assign] is the reading of
    [predict] that the specification gives. *)


From Stdlib Require Import ZArith QArith Qround Qabs Qminmax Qpower.
From Stdlib Require Import List Bool Lia Lqa.
Import ListNotations.
Local Open Scope Q_scope.

(** ** Results of a cell: a value or a raised exception *)

Inductive exn : Set :=
  ValueError | IndexError | ZeroDivisionError | OverflowError.

Inductive result (A : Type) : Type :=
| Ok (a : A)
| Raise (e : exn).
Arguments Ok {A} a.
Arguments Raise {A} e.

Definition bind {A B : Type} (r : result A) (k : A -> result B) : result B :=
  match r with
  | Ok a => k a
  | Raise e => Raise e
  end.

Notation "x <- r ;; k" := (bind r (fun x => k))
  (at level 61, r at next level, right associativity).

(** ** Floating point values with the IEEE special cases *)

Inductive fval : Set :=
| Fin (q : Q)
| PInf
| NInf
| NaN.

Definition matrix := list (list Q).

(** [a / b] for a finite dividend, without rounding.  The sign of a zero
    divisor is not tracked: a non-zero dividend over zero gets the
    dividend's sign. *)
Definition fdiv (a : Q) (b : fval) : fval :=
  match b with
  | Fin d =>
      if Qeq_bool d 0 then
        match Qcompare a 0 with
        | Eq => NaN
        | Gt => PInf
        | Lt => NInf
        end
      else Fin (a / d)
  | PInf | NInf => Fin 0
  | NaN => NaN
  end.

(** [c * s] for a finite left factor, without rounding. *)
Definition fmul (c : Q) (s : fval) : fval :=
  match s with
  | Fin q => Fin (c * q)
  | PInf =>
      match Qcompare c 0 with
      | Eq => NaN
      | Gt => PInf
      | Lt => NInf
      end
  | NInf =>
      match Qcompare c 0 with
      | Eq => NaN
      | Gt => NInf
      | Lt => PInf
      end
  | NaN => NaN
  end.

(** [np.round] on one value: round half to even. *)
Definition round_half_even (q : Q) : Z :=
  let f := Qfloor q in
  match Qcompare (q - inject_Z f) (1 # 2) with
  | Lt => f
  | Gt => (f + 1)%Z
  | Eq => if Z.even f then f else (f + 1)%Z
  end.

Definition np_round (v : fval) : fval :=
  match v with
  | Fin q => Fin (inject_Z (round_half_even q))
  | _ => v
  end.

(** Two's complement reduction into the int8 range. *)
Definition wrap8 (z : Z) : Z := ((z + 128) mod 256 - 128)%Z.

(** Truncation toward zero, the C conversion of a float to an integer. *)
Definition Qtrunc (q : Q) : Z := Z.quot (Qnum q) (Zpos (Qden q)).

(** [np.clip(a, lo, hi)] is [minimum(maximum(a, lo), hi)]. *)
Definition np_clip (a lo hi : Q) : Q := Qmin (Qmax a lo) hi.

(** [np.max] of a flattened array; a zero-size array raises ValueError. *)
Definition np_max (l : list Q) : result Q :=
  match l with
  | [] => Raise ValueError
  | a :: t => Ok (fold_left Qmax t a)
  end.

(** [2**(num_bits - 1) - 1] as a number: an integer for [num_bits >= 1],
    and [2^(num_bits-1) - 1] below (Python's [**] with a negative
    exponent), without rounding. *)
Definition qmax_of (num_bits : Z) : Q := 2 ^ (num_bits - 1) - 1.

(** ** The uniform symmetric quantizer, in exact arithmetic *)

Section Quantizer.

(** [.astype(np.int8)] is the C conversion.  It is exact when the truncated
    value fits int8.  For any other value (out of range, infinite, NaN)
    C leaves the conversion undefined and NumPy returns what the platform
    gives: [cast_other] stands for that value, of which only the low byte
    is kept. *)
Variable cast_other : fval -> Z.

Definition astype_int8 (v : fval) : Z :=
  match v with
  | Fin q =>
      let t := Qtrunc q in
      if ((-128 <=? t) && (t <=? 127))%Z then t else wrap8 (cast_other v)
  | _ => wrap8 (cast_other v)
  end.

(** The quotient [x / scale] rounded and converted, before the clip. *)
Definition quantize_elem (scale : fval) (v : Q) : Z :=
  astype_int8 (np_round (fdiv v scale)).

Definition quantize_symmetric (x : matrix) (num_bits : Z)
  : result (matrix * fval) :=
  max_val <- np_max (map Qabs (concat x)) ;;
  let qmax := qmax_of num_bits in
  let scale := fdiv max_val (Fin qmax) in
  let q := map (map (quantize_elem scale)) x in
  let q := map (map (fun c => np_clip (inject_Z c) (- qmax) qmax)) q in
  Ok (q, scale).

Definition dequantize_symmetric (q : matrix) (scale : fval)
  : list (list fval) :=
  map (map (fun c => fmul c scale)) q.

End Quantizer.

(** The conversion of the usual targets: truncate, keep the low byte; an
    infinity or NaN gives 0. *)
Definition cast_trunc (v : fval) : Z :=
  match v with
  | Fin q => Qtrunc q
  | _ => 0%Z
  end.

Definition create_sample_matrix : matrix :=
  [ [ 1 # 10; - (5 # 10); 0; 1 ];
    [ 25 # 10; - (12 # 10); 7 # 10; - (3 # 10) ];
    [ 9 # 10; 15 # 10; - 2; 2 # 10 ] ].

(** ** Arrays: indexing, slices, shapes *)

Definition sample := list Q.

(** [l[i]] for a non-negative index; out of range raises IndexError. *)
Definition index {A : Type} (l : list A) (i : nat) : result A :=
  match nth_error l i with
  | Some a => Ok a
  | None => Raise IndexError
  end.

Fixpoint mapM {A B : Type} (f : A -> result B) (l : list A)
  : result (list B) :=
  match l with
  | [] => Ok []
  | a :: t => b <- f a ;; bs <- mapM f t ;; Ok (b :: bs)
  end.

(** The slice [l[lo:hi]]: bounds past the end are clamped. *)
Definition slice {A : Type} (lo hi : nat) (l : list A) : list A :=
  firstn (hi - lo) (skipn lo l).

(** [x.shape] of a two-dimensional array given by its rows. *)
Definition shape {A : Type} (x : list (list A)) : nat * nat :=
  (length x, length (hd [] x)).

(** [x.reshape(-1, 1)]: every element becomes a sample of dimension 1. *)
Definition reshape_col (x : matrix) : list sample :=
  map (fun v => [v]) (concat x).

Fixpoint rows_of {A : Type} (rows cols : nat) (l : list A) : list (list A) :=
  match rows with
  | O => []
  | S r => firstn cols l :: rows_of r cols (skipn cols l)
  end.

(** [l.reshape(shp)] of a flat array; a size mismatch raises ValueError. *)
Definition reshape {A : Type} (l : list A) (shp : nat * nat)
  : result (list (list A)) :=
  let (rows, cols) := shp in
  if (length l =? rows * cols)%nat then Ok (rows_of rows cols l)
  else Raise ValueError.

(** Python's [sum]: a left fold from 0. *)
Definition py_sum (l : list Q) : Q := fold_left Qplus l 0.

(** The sum of products behind [np.dot], on the common prefix. *)
Definition dotq (a b : sample) : Q :=
  py_sum (map (fun p => fst p * snd p) (combine a b)).

(** [np.dot] of two vectors; different lengths raise ValueError. *)
Definition dot (a b : sample) : result Q :=
  if (length a =? length b)%nat then Ok (dotq a b) else Raise ValueError.

(** [np.dot(q, cb.T)]: the products of [q] with every row of [cb]. *)
Definition dot_T (q : sample) (cb : list sample) : result (list Q) :=
  mapM (dot q) cb.

(** ** The fitted estimator *)

(** A fitted [KMeans] is known to the cells through its centroids. *)
Record KMeans : Type := { cluster_centers_ : list sample }.

Definition sq_dist (a b : sample) : Q :=
  py_sum (map (fun p => (fst p - snd p) * (fst p - snd p)) (combine a b)).

(** The first index of a least entry of [ds], scanning from index [j] with
    the running best [best] of value [bestd]. *)
Fixpoint argmin_from (best : nat) (bestd : Q) (j : nat) (ds : list Q) : nat :=
  match ds with
  | [] => best
  | d :: t =>
      match Qcompare d bestd with
      | Lt => argmin_from j d (S j) t
      | _ => argmin_from best bestd (S j) t
      end
  end.

(** Modelled from the spec: [assign] stands for what [KMeans.predict] does
    to one sample; the estimator is scikit-learn's and its code is not part
    of the notebook.  The spec (4.2): "returns index of nearest centroid by
    L2 distance; tie-break by lowest index".  Distances are compared
    through their squares. *)
Definition assign (s : sample) (centers : list sample) : nat :=
  match map (sq_dist s) centers with
  | [] => O
  | d :: t => argmin_from 0 d 1 t
  end.

(** Modelled from the spec: [kmeans.predict(X)] as [assign], sample by
    sample. *)
Definition predict_assign (kmeans : KMeans) (X : list sample) : list nat :=
  map (fun s => assign s (cluster_centers_ kmeans)) X.

(** [k] is the index of a nearest centroid of [s], the first among equals:
    no centroid is closer than centroid [k], and every centroid before it is
    strictly farther. *)
Definition nearest_first (s : sample) (centers : list sample) (k : nat)
  : Prop :=
  exists ck,
    nth_error centers k = Some ck /\
    (forall j c, nth_error centers j = Some c ->
                 sq_dist s ck <= sq_dist s c) /\
    (forall j c, (j < k)%nat -> nth_error centers j = Some c ->
                 sq_dist s ck < sq_dist s c).

(** A two-dimensional array has rows of one length. *)
Definition rectangular {A : Type} (x : list (list A)) : Prop :=
  Forall (fun r => length r = snd (shape x)) x.

(** A stand-in for the library's training, to run the cells: the first [K]
    samples are the centroids. *)
Definition fit_first (K : nat) (X : list sample) : KMeans :=
  {| cluster_centers_ := firstn K X |}.

(** What the VQ cell leaves in the notebook's variables. *)
Record vq_artifact : Type := {
  vq_codebook : list Q;
  vq_indices : list nat;
  vq_index_matrix : list (list nat)
}.

(** What the PQ cell leaves in the notebook's variables. *)
Record pq_artifact : Type := {
  pq_codebooks : list (list sample);
  pq_codes : list (list nat)
}.

Section Clustering.

(** [KMeans(n_clusters=K, random_state=0).fit(X)] and [kmeans.predict(X)]
    are the library's: training and prediction are parameters of the
    cells. *)
Variable fit : nat -> list sample -> KMeans.
Variable predict : KMeans -> list sample -> list nat.

(** *** Vector quantization *)

Definition vq_quantize (data : matrix) (K : nat) : result vq_artifact :=
  let flat_data := reshape_col data in
  let kmeans := fit K flat_data in
  let codebook := concat (cluster_centers_ kmeans) in
  let indices := predict kmeans flat_data in
  index_matrix <- reshape indices (shape data) ;;
  Ok {| vq_codebook := codebook;
        vq_indices := indices;
        vq_index_matrix := index_matrix |}.

Definition vq_reconstructed (data : matrix) (a : vq_artifact)
  : result matrix :=
  reconstructed_flat <- mapM (index (vq_codebook a)) (vq_indices a) ;;
  reshape reconstructed_flat (shape data).

(** *** Product quantization *)

Definition subspaces (x : matrix) (M sub_dim : nat) : list (list sample) :=
  map (fun i => map (slice (i * sub_dim) ((i + 1) * sub_dim)) x) (seq 0 M).

(** [np.stack(codes, axis=1)] of [M] arrays of length [n]. *)
Definition stack_axis1 (n : nat) (codes : list (list nat))
  : list (list nat) :=
  map (fun r => map (fun c => nth r c O) codes) (seq 0 n).

Definition pq_quantize (x : matrix) (M pc : nat) : result pq_artifact :=
  let (n, d) := shape x in
  if (M =? 0)%nat then Raise ZeroDivisionError
  else
    let sub_dim := (d / M)%nat in
    let fitted :=
      map (fun sub => (fit pc sub, sub)) (subspaces x M sub_dim) in
    let codebooks := map (fun ks => cluster_centers_ (fst ks)) fitted in
    let codes := map (fun ks => predict (fst ks) (snd ks)) fitted in
    Ok {| pq_codebooks := codebooks; pq_codes := stack_axis1 n codes |}.

End Clustering.

(** [np.hstack] of blocks of [n] rows each; no block at all raises
    ValueError. *)
Definition hstack (n : nat) (blocks : list (list sample)) : result matrix :=
  match blocks with
  | [] => Raise ValueError
  | _ => Ok (map (fun r => concat (map (fun b => nth r b []) blocks))
               (seq 0 n))
  end.

(** [np.hstack([codebooks[i][pq_codes[:, i]] for i in range(M)])]. *)
Definition reconstructed_pq (codebooks : list (list sample))
  (codes : list (list nat)) (M : nat) : result matrix :=
  blocks <- mapM (fun i =>
                    cb <- index codebooks i ;;
                    col <- mapM (fun row => index row i) codes ;;
                    mapM (index cb) col) (seq 0 M) ;;
  hstack (length codes) blocks.

(** The centroid a row's code selects in subspace [i]:
    [codebooks[i][row_codes[i]]], for indices in range. *)
Definition centroid_of (codebooks : list (list sample))
  (row_codes : list nat) (i : nat) : sample :=
  nth (nth i row_codes O) (nth i codebooks []) [].

(** Codes in range: one index per subspace, each below the size of its
    codebook. *)
Definition codes_in_range (codebooks : list (list sample))
  (row : list nat) : Prop :=
  Forall2 (fun c cb => (c < length cb)%nat) row codebooks.

(** *** Lookup-based dot products *)

(** [query[i*sub_dim : (i+1)*sub_dim]], the query's part in subspace [i]. *)
Definition query_sub_at (query : sample) (sub_dim i : nat) : sample :=
  slice (i * sub_dim) ((i + 1) * sub_dim) query.

Definition query_subs (query : sample) (M sub_dim : nat) : list sample :=
  map (query_sub_at query sub_dim) (seq 0 M).

Definition lookup_tables (query : sample) (codebooks : list (list sample))
  (M sub_dim : nat) : result (list (list Q)) :=
  mapM (fun i =>
          qs <- index (query_subs query M sub_dim) i ;;
          cb <- index codebooks i ;;
          dot_T qs cb) (seq 0 M).

(** The sum of one row's lookups. *)
Definition approx_dot (tables : list (list Q)) (row_codes : list nat)
  (M : nat) : result Q :=
  terms <- mapM (fun i =>
                   t <- index tables i ;;
                   c <- index row_codes i ;;
                   index t c) (seq 0 M) ;;
  Ok (py_sum terms).

Definition dot_products (tables : list (list Q)) (codes : list (list nat))
  (n M : nat) : result (list Q) :=
  mapM (fun row_idx =>
          row <- index codes row_idx ;;
          approx_dot tables row M) (seq 0 n).

(** *** The cells' results in closed form, for inputs in range *)

Definition table_rows (query : sample) (codebooks : list (list sample))
  (M sub_dim : nat) : list (list Q) :=
  map (fun i => map (dotq (query_sub_at query sub_dim i)) (nth i codebooks []))
    (seq 0 M).

Definition lookup_sum (query : sample) (codebooks : list (list sample))
  (M sub_dim : nat) (row : list nat) : Q :=
  py_sum (map (fun i =>
                 dotq (query_sub_at query sub_dim i)
                   (centroid_of codebooks row i)) (seq 0 M)).

Definition decode_row (codebooks : list (list sample)) (M : nat)
  (row : list nat) : sample :=
  concat (map (centroid_of codebooks row) (seq 0 M)).

(** The lookup cell's query, and the codebooks and codes the notebook
    printed for the PQ cell. *)
Definition sample_query : sample := [ 2 # 10; - (1 # 10); 5 # 10; 1 ].

Definition sample_codebooks : list (list sample) :=
  [ [ [ 25 # 10; - (12 # 10) ]; [ 9 # 10; 15 # 10 ]; [ 1 # 10; - (5 # 10) ] ];
    [ [ 7 # 10; - (3 # 10) ]; [ - 2; 2 # 10 ]; [ 0; 1 ] ] ].

Definition sample_pq_codes : list (list nat) :=
  [ [ 2; 2 ]; [ 0; 0 ]; [ 1; 1 ] ]%nat.

(** The codebook the notebook printed for the VQ cell. *)
Definition sample_vq_kmeans : KMeans :=
  {| cluster_centers_ :=
       [ [ 1025 # 1000 ]; [ - (16 # 10) ]; [ 25 # 10 ]; [ - (1 # 10) ] ] |}.

(** ** The quantizer in float32 arithmetic

    [quantize_symmetric] and [dequantize_symmetric] with the arithmetic
    NumPy performs on a float32 array: every quotient and product is
    rounded to the nearest float32 (ties to the even mantissa), with
    gradual underflow below [2^-126] and overflow to an infinity from
    [2^128].  Python's own arithmetic on [num_bits] is exact on integers
    and double precision on floats. *)

Module F32.

(** [floor (log2 a)] for [a > 0]. *)
Definition Qlog2 (a : Q) : Z :=
  let e0 := (Z.log2 (Qnum a) - Z.log2 (Zpos (Qden a)))%Z in
  if Qle_bool (2 ^ e0) a then e0 else (e0 - 1)%Z.

(** The exponent of the last mantissa bit of [q] in the binary format with
    [prec] mantissa bits whose least positive value is [2^emin]. *)
Definition binary_exponent (prec emin : Z) (q : Q) : Z :=
  Z.max (Qlog2 (Qabs q) - (prec - 1)) emin.

(** The multiple of [2^e] nearest to [q], ties to the even multiple. *)
Definition binary_nearest (prec emin : Z) (q : Q) : Q :=
  let e := binary_exponent prec emin q in
  inject_Z (round_half_even (q / 2 ^ e)) * 2 ^ e.

(** IEEE 754 round to nearest even: the nearest value of the format, an
    infinity when that value reaches [2^emax]. *)
Definition round_binary (prec emin emax : Z) (q : Q) : fval :=
  if Qeq_bool q 0 then Fin 0
  else
    let r := binary_nearest prec emin q in
    if Qle_bool (2 ^ emax) (Qabs r) then
      if Qle_bool 0 q then PInf else NInf
    else Fin (Qred r).

(** binary32 and binary64. *)
Definition round32 : Q -> fval := round_binary 24 (-149) 128.
Definition round64 : Q -> fval := round_binary 53 (-1074) 1024.

(** The float32 nearest to a value within the float32 range. *)
Definition float32 (q : Q) : Q :=
  match round32 q with
  | Fin r => r
  | _ => 0
  end.

(** The double nearest to a value within the double range. *)
Definition double (q : Q) : Q :=
  match round64 q with
  | Fin d => d
  | _ => 0
  end.

(** float32 [a / b] for a finite dividend.  The sign of a zero is not
    tracked: a non-zero dividend over zero gets the dividend's sign, as
    over a positive zero (a zero scale under a non-zero float32 element is
    one: an underflow of [max_val / qmax] with [qmax > 0]). *)
Definition fdiv (a : Q) (b : fval) : fval :=
  match b with
  | Fin d =>
      if Qeq_bool d 0 then
        match Qcompare a 0 with
        | Eq => NaN
        | Gt => PInf
        | Lt => NInf
        end
      else round32 (a / d)
  | PInf | NInf => Fin 0
  | NaN => NaN
  end.

(** float32 [a * b]. *)
Definition fmul (a b : fval) : fval :=
  match a, b with
  | NaN, _ | _, NaN => NaN
  | Fin x, Fin y => round32 (x * y)
  | Fin x, PInf | PInf, Fin x =>
      match Qcompare x 0 with
      | Eq => NaN
      | Gt => PInf
      | Lt => NInf
      end
  | Fin x, NInf | NInf, Fin x =>
      match Qcompare x 0 with
      | Eq => NaN
      | Gt => NInf
      | Lt => PInf
      end
  | PInf, PInf | NInf, NInf => PInf
  | PInf, NInf | NInf, PInf => NInf
  end.

(** A Python number: an [int] of any size or a [float] (a double). *)
Inductive pynum : Set :=
| PyInt (z : Z)
| PyFloat (d : Q).

Definition pynum_val (n : pynum) : Q :=
  match n with
  | PyInt z => inject_Z z
  | PyFloat d => d
  end.

(** [float(z)]: the nearest double; an int beyond the doubles raises
    OverflowError (int too large to convert to float). *)
Definition py_float (z : Z) : result Q :=
  match round64 (inject_Z z) with
  | Fin d => Ok d
  | _ => Raise OverflowError
  end.

(** [2**(num_bits - 1) - 1].  For [num_bits >= 1] an int.  Below, [**]
    has a negative exponent and computes on floats, [2.0 ** float(num_bits
    - 1)], a power of two or 0.0 after underflow, from which the float 1.0
    is subtracted. *)
Definition qmax_of (num_bits : Z) : result pynum :=
  if (1 <=? num_bits)%Z then Ok (PyInt (2 ^ (num_bits - 1) - 1))
  else
    e <- py_float (num_bits - 1) ;;
    Ok (PyFloat (double (double (2 ^ Qfloor e) - 1))).

(** The Python scalar as the float32 operand of [max_val / qmax]: an int
    is converted as [float(z)] is, and the double is rounded to float32
    (an infinity from [2^128]). *)
Definition float32_of (n : pynum) : result fval :=
  match n with
  | PyInt z => d <- py_float z ;; Ok (round32 d)
  | PyFloat d => Ok (round32 d)
  end.

Section Quantizer.

Variable cast_other : fval -> Z.

(** The quotient [x / scale] rounded and converted, before the clip. *)
Definition quantize_elem (scale : fval) (v : Q) : Z :=
  astype_int8 cast_other (np_round (fdiv v scale)).

(** [np.clip] with the Python scalars [-qmax] and [qmax] compares the
    values exactly: int bounds beyond int8 clip nothing, float bounds give
    a float64 result. *)
Definition quantize_symmetric (x : matrix) (num_bits : Z)
  : result (matrix * fval) :=
  max_val <- np_max (map Qabs (concat x)) ;;
  qmax <- qmax_of num_bits ;;
  qmax32 <- float32_of qmax ;;
  let scale := fdiv max_val qmax32 in
  let q := map (map (quantize_elem scale)) x in
  let lo := - pynum_val qmax in
  let hi := pynum_val qmax in
  let q := map (map (fun c => np_clip (inject_Z c) lo hi)) q in
  Ok (q, scale).

(** [q.astype(np.float32) * scale]. *)
Definition dequantize_symmetric (q : matrix) (scale : fval)
  : list (list fval) :=
  map (map (fun c => fmul (round32 c) scale)) q.

End Quantizer.

(** The sample matrix as the float32 array the source builds: each literal
    is a double, stored as the nearest float32. *)
Definition create_sample_matrix : matrix :=
  map (map (fun v => float32 (double v))) create_sample_matrix.

End F32.

(** ** Rounding *)

Lemma round_half_even_cases (q : Q) :
  (round_half_even q = Qfloor q /\ q - inject_Z (Qfloor q) <= 1 # 2) \/
  (round_half_even q = (Qfloor q + 1)%Z /\ 1 # 2 <= q - inject_Z (Qfloor q)).
Proof.
  unfold round_half_even.
  destruct (Qcompare (q - inject_Z (Qfloor q)) (1 # 2)) eqn:E.
  - apply Qeq_alt in E.
    destruct (Z.even (Qfloor q)); [left | right]; split; auto; lra.
  - apply Qlt_alt in E. left; split; auto; lra.
  - apply Qgt_alt in E. right; split; auto; lra.
Qed.

Lemma round_half_even_error (q : Q) :
  Qabs (q - inject_Z (round_half_even q)) <= 1 # 2.
Proof.
  pose proof (Qfloor_le q) as Hlo.
  pose proof (Qlt_floor q) as Hhi.
  rewrite inject_Z_plus in Hhi. change (inject_Z 1) with 1 in Hhi.
  apply Qabs_Qle_condition.
  destruct (round_half_even_cases q) as [[-> H] | [-> H]].
  - split; lra.
  - rewrite inject_Z_plus. change (inject_Z 1) with 1. split; lra.
Qed.

Lemma round_half_even_bounded (q : Q) (n : Z) :
  - inject_Z n <= q <= inject_Z n ->
  (- n <= round_half_even q <= n)%Z.
Proof.
  intros [Hlo Hhi].
  assert (Hf : (- n <= Qfloor q)%Z).
  { rewrite <- (Qfloor_Z (- n)). apply Qfloor_resp_le.
    rewrite inject_Z_opp. exact Hlo. }
  pose proof (Qfloor_le q) as Hfl.
  destruct (round_half_even_cases q) as [[-> H] | [-> H]].
  - split; [exact Hf |].
    rewrite Zle_Qle. lra.
  - split; [lia |].
    assert (Hlt : inject_Z (Qfloor q) < inject_Z n) by lra.
    rewrite <- Zlt_Qlt in Hlt. lia.
Qed.

Lemma Qtrunc_inject_Z (z : Z) : Qtrunc (inject_Z z) = z.
Proof. unfold Qtrunc; simpl. apply Z.quot_1_r. Qed.

Lemma wrap8_range (z : Z) : (-128 <= wrap8 z <= 127)%Z.
Proof. unfold wrap8. pose proof (Z.mod_pos_bound (z + 128) 256). lia. Qed.

Lemma astype_int8_range (cast : fval -> Z) (v : fval) :
  (-128 <= astype_int8 cast v <= 127)%Z.
Proof.
  destruct v as [q | | |]; simpl; try apply wrap8_range.
  destruct ((-128 <=? Qtrunc q) && (Qtrunc q <=? 127))%Z eqn:E.
  - apply andb_true_iff in E as [E1 E2]. lia.
  - apply wrap8_range.
Qed.

Lemma astype_int8_exact (cast : fval -> Z) (z : Z) :
  (-128 <= z <= 127)%Z -> astype_int8 cast (Fin (inject_Z z)) = z.
Proof.
  intros Hz. unfold astype_int8. rewrite Qtrunc_inject_Z.
  replace ((-128 <=? z) && (z <=? 127))%Z with true; [reflexivity |].
  symmetry. apply andb_true_iff. lia.
Qed.

(** ** The maximum absolute value *)

Lemma fold_left_Qmax_ge (l : list Q) (a : Q) :
  a <= fold_left Qmax l a /\ Forall (fun b => b <= fold_left Qmax l a) l.
Proof.
  revert a. induction l as [| b l IH]; intros a; simpl.
  - split; [lra | constructor].
  - destruct (IH (Qmax a b)) as [H1 H2].
    pose proof (Q.le_max_l a b). pose proof (Q.le_max_r a b).
    split; [lra |]. constructor; [lra | exact H2].
Qed.

Lemma Qmax_cases (a b : Q) : Qmax a b = a \/ Qmax a b = b.
Proof.
  unfold Qmax, GenericMinMax.gmax. destruct (Qcompare a b); auto.
Qed.

Lemma fold_left_Qmax_In (l : list Q) (a : Q) :
  In (fold_left Qmax l a) (a :: l).
Proof.
  revert a. induction l as [| b l IH]; intros a; simpl.
  - now left.
  - destruct (IH (Qmax a b)) as [H | H]; [| auto].
    rewrite <- H. destruct (Qmax_cases a b) as [E | E]; rewrite E; auto.
Qed.

Lemma np_max_spec (l : list Q) (m : Q) :
  np_max l = Ok m -> In m l /\ Forall (fun b => b <= m) l.
Proof.
  destruct l as [| a t]; simpl; [discriminate |].
  intros [= <-]. split.
  - apply fold_left_Qmax_In.
  - destruct (fold_left_Qmax_ge t a). now constructor.
Qed.

Lemma np_max_nonempty (l : list Q) :
  l <> [] -> exists m, np_max l = Ok m.
Proof. destruct l; [congruence | simpl; eauto]. Qed.

Lemma Forall_concat_matrix (P : Q -> Prop) (x : matrix) :
  Forall P (concat x) <-> Forall (Forall P) x.
Proof.
  induction x as [| r x IH]; simpl.
  - split; constructor.
  - rewrite Forall_app, IH. split.
    + intros [H1 H2]. now constructor.
    + intros H. inversion H; subst. now split.
Qed.

Lemma max_val_spec (x : matrix) (m : Q) :
  np_max (map Qabs (concat x)) = Ok m ->
  0 <= m /\ Forall (Forall (fun v => Qabs v <= m)) x.
Proof.
  intros H. apply np_max_spec in H as [Hin Hall]. split.
  - apply in_map_iff in Hin as (v & <- & _). apply Qabs_nonneg.
  - apply Forall_concat_matrix. rewrite Forall_map in Hall. exact Hall.
Qed.

(** A matrix all of whose elements are zero has maximum zero. *)
Lemma max_val_zero (x : matrix) (m : Q) :
  Forall (Forall (fun v => v == 0)) x ->
  np_max (map Qabs (concat x)) = Ok m -> m == 0.
Proof.
  intros Hz H. apply np_max_spec in H as [Hin _].
  apply in_map_iff in Hin as (v & <- & Hv).
  apply Forall_concat_matrix in Hz. rewrite Forall_forall in Hz.
  rewrite (Hz v Hv). reflexivity.
Qed.

Lemma map_concat_nonempty (x : matrix) :
  concat x <> [] -> map Qabs (concat x) <> [].
Proof. destruct (concat x); simpl; congruence. Qed.

(** ** The clip *)

Lemma np_clip_between (a lo hi : Q) :
  lo <= hi -> lo <= np_clip a lo hi <= hi.
Proof.
  intros H. unfold np_clip.
  destruct (Q.max_spec a lo) as [[H1 E1] | [H1 E1]];
    destruct (Q.min_spec (Qmax a lo) hi) as [[H2 E2] | [H2 E2]];
    split; lra.
Qed.

Lemma np_clip_id (a lo hi : Q) :
  lo <= a <= hi -> np_clip a lo hi = a.
Proof.
  intros [H1 H2].
  unfold np_clip, Qmin, Qmax, GenericMinMax.gmin, GenericMinMax.gmax.
  destruct (Qcompare a lo) eqn:E1.
  - destruct (Qcompare a hi) eqn:E2; auto.
    apply Qgt_alt in E2. lra.
  - apply Qlt_alt in E1. lra.
  - destruct (Qcompare a hi) eqn:E2; auto.
    apply Qgt_alt in E2. lra.
Qed.

(** ** Element-wise reasoning on matrices *)

Lemma Forall_matrix_map (P : Q -> Prop) (f : Q -> Q) (x : matrix) :
  Forall (Forall P) (map (map f) x) <-> Forall (Forall (fun v => P (f v))) x.
Proof.
  rewrite Forall_map. split; intros H; eapply Forall_impl; try exact H;
    intros r Hr; now apply Forall_map.
Qed.

Lemma Forall_matrix_all (P : Q -> Prop) (x : matrix) :
  (forall v, P v) -> Forall (Forall P) x.
Proof.
  intros H. apply Forall_forall. intros r _. apply Forall_forall. auto.
Qed.

Lemma map_matrix_ext (f g : Q -> Q) (x : matrix) :
  Forall (Forall (fun v => f v = g v)) x -> map (map f) x = map (map g) x.
Proof.
  intros H. apply map_ext_Forall. eapply Forall_impl; [| exact H].
  intros r Hr. now apply map_ext_Forall.
Qed.

(** ** quantize_symmetric *)

Section QuantizerFacts.

Variable cast : fval -> Z.

(** The codes and the scale as functions of the maximum. *)
Lemma quantize_symmetric_ok (x : matrix) (num_bits : Z) (m : Q) :
  np_max (map Qabs (concat x)) = Ok m ->
  quantize_symmetric cast x num_bits =
  Ok (map (map (fun v =>
                  np_clip
                    (inject_Z
                       (quantize_elem cast (fdiv m (Fin (qmax_of num_bits))) v))
                    (- qmax_of num_bits) (qmax_of num_bits))) x,
      fdiv m (Fin (qmax_of num_bits))).
Proof.
  intros H. unfold quantize_symmetric. rewrite H. simpl.
  f_equal. f_equal. rewrite map_map. apply map_ext. intros r.
  now rewrite map_map.
Qed.

End QuantizerFacts.

Lemma Forall2_matrix_map {B : Type} (R : Q -> B -> Prop) (h : Q -> B)
  (x : matrix) :
  Forall (Forall (fun v => R v (h v))) x ->
  Forall2 (Forall2 R) x (map (map h) x).
Proof.
  induction 1 as [| r x Hr _ IH]; simpl; constructor; [| exact IH].
  induction Hr; simpl; constructor; auto.
Qed.

Lemma max_val_pos (x : matrix) (m : Q) :
  np_max (map Qabs (concat x)) = Ok m -> ~ m == 0 -> 0 < m.
Proof.
  intros H Hne. destruct (max_val_spec x m H) as [H0 _].
  apply Qle_lteq in H0 as [H0 | H0]; [exact H0 |].
  exfalso. apply Hne. now symmetry.
Qed.

(** ** The worked sample *)

(** C6: on the sample matrix with [num_bits = 8] the scale is [2.5 / 127],
    within [10^-6] of 0.019685, and row 0 of the codes is [5, -25, 0, 51]. *)
Theorem sample_matrix_quantized (cast : fval -> Z) :
  exists codes s,
    quantize_symmetric cast create_sample_matrix 8 = Ok (codes, Fin s) /\
    s == (25 # 10) / 127 /\
    Qabs (s - (19685 # 1000000)) < 1 # 1000000 /\
    nth_error codes 0 = Some [5; - (25); 0; 51].
Proof.
  eexists. eexists. split; [| split; [| split]].
  - vm_compute. reflexivity.
  - reflexivity.
  - reflexivity.
  - reflexivity.
Qed.

(** ** Indexing and [mapM] *)

(** Membership in [range(M)] as a bound. *)
Ltac seq_bound H := apply in_seq in H; simpl in H; destruct H as [_ H].

Lemma mapM_ok {A B : Type} (f : A -> result B) (g : A -> B) (l : list A) :
  (forall a, In a l -> f a = Ok (g a)) -> mapM f l = Ok (map g l).
Proof.
  induction l as [| a t IH]; intros H; simpl; [reflexivity |].
  rewrite (H a (or_introl eq_refl)). simpl.
  rewrite IH by (intros b Hb; apply H; now right). reflexivity.
Qed.

Lemma mapM_map {A B C : Type} (f : B -> result C) (g : A -> B)
  (l : list A) :
  mapM f (map g l) = mapM (fun a => f (g a)) l.
Proof.
  induction l as [| a t IH]; simpl; [reflexivity |]. now rewrite IH.
Qed.

Lemma index_nth {A : Type} (l : list A) (i : nat) (d : A) :
  (i < length l)%nat -> index l i = Ok (nth i l d).
Proof.
  intros H. unfold index. now rewrite (nth_error_nth' l d H).
Qed.

Lemma index_map_seq {A : Type} (f : nat -> A) (M i : nat) :
  (i < M)%nat -> index (map f (seq 0 M)) i = Ok (f i).
Proof.
  intros H. unfold index. rewrite nth_error_map.
  rewrite nth_error_nth' with (d := O) by (now rewrite length_seq).
  rewrite seq_nth by exact H. reflexivity.
Qed.

Lemma nth_map_seq {A : Type} (f : nat -> A) (M i : nat) (d : A) :
  (i < M)%nat -> nth i (map f (seq 0 M)) d = f i.
Proof.
  intros H. rewrite nth_indep with (d' := f O)
    by (now rewrite length_map, length_seq).
  rewrite map_nth. now rewrite seq_nth.
Qed.

Lemma nth_map_in_range {A B : Type} (f : A -> B) (l : list A) (i : nat)
  (d : A) (e : B) :
  (i < length l)%nat -> nth i (map f l) e = f (nth i l d).
Proof.
  intros H. rewrite nth_indep with (d' := f d) by (now rewrite length_map).
  apply map_nth.
Qed.

Lemma Forall2_map_same {A B C : Type} (R : B -> C -> Prop) (f : A -> B)
  (g : A -> C) (l : list A) :
  (forall a, In a l -> R (f a) (g a)) -> Forall2 R (map f l) (map g l).
Proof.
  induction l as [| a t IH]; intros H; simpl; constructor.
  - apply H. now left.
  - apply IH. intros b Hb. apply H. now right.
Qed.

(** ** Sums and dot products *)

Lemma fold_left_Qplus_acc (l : list Q) (a : Q) :
  fold_left Qplus l a == a + py_sum l.
Proof.
  unfold py_sum. revert a. induction l as [| x l IH]; intros a; simpl.
  - ring.
  - rewrite (IH (a + x)), (IH (0 + x)). ring.
Qed.

Lemma py_sum_app (l1 l2 : list Q) :
  py_sum (l1 ++ l2) == py_sum l1 + py_sum l2.
Proof.
  unfold py_sum at 1. rewrite fold_left_app.
  apply fold_left_Qplus_acc.
Qed.

Lemma combine_app_eq {A B : Type} (a b : list A) (c d : list B) :
  length a = length c ->
  combine (a ++ b) (c ++ d) = combine a c ++ combine b d.
Proof.
  revert c. induction a as [| x a IH]; intros [| y c] H; simpl in *;
    try discriminate; [reflexivity |].
  now rewrite IH by congruence.
Qed.

Lemma dotq_app (a b c d : sample) :
  length a = length c ->
  dotq (a ++ b) (c ++ d) == dotq a c + dotq b d.
Proof.
  intros H. unfold dotq. rewrite combine_app_eq by exact H.
  rewrite map_app. apply py_sum_app.
Qed.

Lemma firstn_plus {A : Type} (a b : nat) (l : list A) :
  firstn (a + b) l = firstn a l ++ firstn b (skipn a l).
Proof.
  revert l. induction a as [| a IH]; intros l; simpl; [reflexivity |].
  destruct l as [| x l]; simpl.
  - now rewrite firstn_nil.
  - now rewrite IH.
Qed.

Lemma query_sub_at_block (query : sample) (sub_dim i : nat) :
  query_sub_at query sub_dim i = firstn sub_dim (skipn (i * sub_dim) query).
Proof. unfold query_sub_at, slice. f_equal. lia. Qed.

Lemma query_sub_at_length (query : sample) (M sub_dim i : nat) :
  (i < M)%nat -> length query = (M * sub_dim)%nat ->
  length (query_sub_at query sub_dim i) = sub_dim.
Proof.
  intros Hi Hl. rewrite query_sub_at_block, length_firstn, length_skipn. nia.
Qed.

Lemma concat_blocks_length (cent : nat -> sample) (M sub_dim : nat) :
  (forall i, (i < M)%nat -> length (cent i) = sub_dim) ->
  length (concat (map cent (seq 0 M))) = (M * sub_dim)%nat.
Proof.
  induction M as [| M IH]; intros H; [reflexivity |].
  rewrite seq_S, map_app, concat_app, length_app. simpl.
  rewrite app_nil_r, IH by (intros i Hi; apply H; lia).
  rewrite H by lia. lia.
Qed.

(** The sum of the per-subspace products is the product with the
    concatenation: the same terms, grouped by subspace. *)
Lemma blockwise_dot (query : sample) (cent : nat -> sample)
  (M sub_dim : nat) :
  (M * sub_dim <= length query)%nat ->
  (forall i, (i < M)%nat -> length (cent i) = sub_dim) ->
  py_sum (map (fun i => dotq (query_sub_at query sub_dim i) (cent i))
            (seq 0 M)) ==
  dotq (firstn (M * sub_dim) query) (concat (map cent (seq 0 M))).
Proof.
  induction M as [| M IH]; intros Hlen Hc.
  - simpl. reflexivity.
  - rewrite seq_S, !map_app, concat_app. simpl.
    rewrite py_sum_app.
    rewrite IH by (try lia; intros i Hi; apply Hc; lia).
    replace (sub_dim + M * sub_dim)%nat with (M * sub_dim + sub_dim)%nat
      by lia.
    rewrite firstn_plus, app_nil_r.
    rewrite dotq_app.
    + rewrite query_sub_at_block. unfold py_sum at 1. simpl. ring.
    + rewrite concat_blocks_length with (sub_dim := sub_dim)
        by (intros i Hi; apply Hc; lia).
      rewrite length_firstn. lia.
Qed.

Lemma Forall2_nth_both {A B : Type} (R : A -> B -> Prop) (l1 : list A)
  (l2 : list B) (i : nat) (d1 : A) (d2 : B) :
  Forall2 R l1 l2 -> (i < length l1)%nat -> R (nth i l1 d1) (nth i l2 d2).
Proof.
  intros H. revert i. induction H as [| a b l1 l2 Hab _ IH]; intros i Hi;
    simpl in *; [lia |].
  destruct i as [| i]; [exact Hab | apply IH; lia].
Qed.

Lemma map_nth_seq {A B : Type} (F : A -> B) (l : list A) (d : A) :
  map (fun r => F (nth r l d)) (seq 0 (length l)) = map F l.
Proof.
  induction l as [| a l IH]; [reflexivity |].
  simpl. f_equal. rewrite <- seq_shift, map_map. exact IH.
Qed.

Lemma hstack_ok (n : nat) (blocks : list (list sample)) :
  blocks <> [] ->
  hstack n blocks =
  Ok (map (fun r => concat (map (fun b => nth r b []) blocks)) (seq 0 n)).
Proof. destruct blocks; [congruence | reflexivity]. Qed.

Lemma map_seq_nonempty {A : Type} (f : nat -> A) (M : nat) :
  M <> O -> map f (seq 0 M) <> [].
Proof. destruct M; [congruence | discriminate]. Qed.

(** ** Lookup tables against the reconstructed rows *)

Section LookupEquivalence.

Variables (query : sample) (codebooks : list (list sample)).
Variables (M sub_dim : nat).

Hypothesis codebooks_count : length codebooks = M.
Hypothesis centroid_dim :
  Forall (Forall (fun c => length c = sub_dim)) codebooks.
Hypothesis query_dim : length query = (M * sub_dim)%nat.
Hypothesis some_subspace : M <> O.

Lemma in_range_length (row : list nat) :
  codes_in_range codebooks row -> length row = M.
Proof.
  intros H. rewrite (Forall2_length H). exact codebooks_count.
Qed.

Lemma code_below_size (row : list nat) (i : nat) :
  codes_in_range codebooks row -> (i < M)%nat ->
  (nth i row O < length (nth i codebooks []))%nat.
Proof.
  intros H Hi. apply (Forall2_nth_both _ row codebooks i O [] H).
  now rewrite (in_range_length row H).
Qed.

Lemma codebook_dim (i : nat) (c : sample) :
  (i < M)%nat -> In c (nth i codebooks []) -> length c = sub_dim.
Proof.
  intros Hi Hc. rewrite Forall_forall in centroid_dim.
  assert (Hcb : In (nth i codebooks []) codebooks) by (apply nth_In; lia).
  specialize (centroid_dim _ Hcb). rewrite Forall_forall in centroid_dim.
  now apply centroid_dim.
Qed.

Lemma centroid_of_length (row : list nat) (i : nat) :
  codes_in_range codebooks row -> (i < M)%nat ->
  length (centroid_of codebooks row i) = sub_dim.
Proof.
  intros H Hi. apply (codebook_dim i); [exact Hi |].
  unfold centroid_of. apply nth_In. now apply code_below_size.
Qed.

Lemma lookup_tables_ok :
  lookup_tables query codebooks M sub_dim =
  Ok (table_rows query codebooks M sub_dim).
Proof.
  unfold lookup_tables, table_rows. apply mapM_ok. intros i Hi.
  seq_bound Hi.
  unfold query_subs. rewrite index_map_seq by exact Hi. cbn [bind].
  rewrite (index_nth codebooks i []) by lia. cbn [bind].
  unfold dot_T. apply mapM_ok. intros c Hc.
  unfold dot.
  rewrite (query_sub_at_length query M sub_dim i Hi query_dim).
  rewrite (codebook_dim i c Hi Hc), Nat.eqb_refl. reflexivity.
Qed.

Lemma approx_dot_ok (row : list nat) :
  codes_in_range codebooks row ->
  approx_dot (table_rows query codebooks M sub_dim) row M =
  Ok (lookup_sum query codebooks M sub_dim row).
Proof.
  intros H. unfold approx_dot, lookup_sum, table_rows.
  rewrite (mapM_ok _ (fun i =>
             dotq (query_sub_at query sub_dim i)
               (centroid_of codebooks row i))); [reflexivity |].
  intros i Hi. seq_bound Hi.
  rewrite index_map_seq by exact Hi. cbn [bind].
  rewrite (index_nth row i O) by (now rewrite (in_range_length row H)).
  cbn [bind]. unfold index. rewrite nth_error_map.
  pose proof (nth_error_nth' (nth i codebooks []) []
                (code_below_size row i H Hi)) as E.
  rewrite E. reflexivity.
Qed.

Lemma dot_products_ok (codes : list (list nat)) :
  Forall (codes_in_range codebooks) codes ->
  dot_products (table_rows query codebooks M sub_dim) codes (length codes) M =
  Ok (map (lookup_sum query codebooks M sub_dim) codes).
Proof.
  intros H. unfold dot_products.
  rewrite <- (map_nth_seq _ codes []).
  apply mapM_ok. intros r Hr. seq_bound Hr.
  rewrite (index_nth codes r []) by exact Hr. cbn [bind].
  apply approx_dot_ok.
  rewrite Forall_forall in H. apply H. now apply nth_In.
Qed.

Lemma reconstructed_pq_ok (codes : list (list nat)) :
  Forall (codes_in_range codebooks) codes ->
  reconstructed_pq codebooks codes M = Ok (map (decode_row codebooks M) codes).
Proof.
  intros H. unfold reconstructed_pq, decode_row.
  rewrite (mapM_ok _ (fun i =>
             map (fun row => centroid_of codebooks row i) codes)).
  - cbn [bind]. rewrite hstack_ok by (now apply map_seq_nonempty).
    f_equal. rewrite <- (map_nth_seq _ codes []).
    apply map_ext_in. intros r Hr. seq_bound Hr.
    f_equal. rewrite map_map.
    apply map_ext. intros i.
    exact (nth_map_in_range (fun row => centroid_of codebooks row i)
             codes r [] [] Hr).
  - intros i Hi. seq_bound Hi.
    rewrite (index_nth codebooks i []) by lia. cbn [bind].
    rewrite (mapM_ok _ (fun row => nth i row O)).
    + cbn [bind]. rewrite mapM_map. apply mapM_ok. intros row Hrow.
      rewrite Forall_forall in H. specialize (H row Hrow).
      unfold index, centroid_of.
      pose proof (nth_error_nth' (nth i codebooks []) []
                    (code_below_size row i H Hi)) as E.
      now rewrite E.
    + intros row Hrow. rewrite Forall_forall in H.
      apply index_nth. now rewrite (in_range_length row (H row Hrow)).
Qed.

(** C1: for a query of dimension [M * sub_dim], [M >= 1] codebooks of
    centroids of dimension [sub_dim] and rows of codes in range, the cells
    return, and the lookup sum of every row equals (as a rational, the
    grouping of the additions apart) the direct dot product of the query
    with that row's reconstruction, its centroids concatenated. *)
Theorem lookup_equals_direct_dot (codes : list (list nat)) (n : nat) :
  length codes = n ->
  Forall (codes_in_range codebooks) codes ->
  exists tables dps rows,
    lookup_tables query codebooks M sub_dim = Ok tables /\
    dot_products tables codes n M = Ok dps /\
    reconstructed_pq codebooks codes M = Ok rows /\
    Forall2 (fun dp row => exists w, dot query row = Ok w /\ dp == w)
      dps rows.
Proof.
  intros Hn Hr. subst n.
  eexists. eexists. eexists.
  split; [apply lookup_tables_ok |].
  split; [apply dot_products_ok; exact Hr |].
  split; [apply reconstructed_pq_ok; exact Hr |].
  apply Forall2_map_same. intros row Hrow.
  rewrite Forall_forall in Hr. specialize (Hr row Hrow).
  assert (Hlen : length (decode_row codebooks M row) = (M * sub_dim)%nat).
  { apply concat_blocks_length. intros i Hi.
    now apply centroid_of_length. }
  eexists. split.
  - unfold dot. rewrite Hlen, query_dim, Nat.eqb_refl. reflexivity.
  - assert (E : firstn (M * sub_dim) query = query)
      by (rewrite <- query_dim; apply firstn_all).
    pose proof (blockwise_dot query (centroid_of codebooks row) M sub_dim)
      as B.
    rewrite E in B. apply B; [lia |].
    intros i Hi. now apply centroid_of_length.
Qed.

End LookupEquivalence.

Lemma lookup_equals_direct_dot_witness :
  exists tables dps rows,
    lookup_tables sample_query sample_codebooks 2 2 = Ok tables /\
    dot_products tables sample_pq_codes 3 2 = Ok dps /\
    reconstructed_pq sample_codebooks sample_pq_codes 2 = Ok rows /\
    Forall2 (fun dp row => exists w, dot sample_query row = Ok w /\ dp == w)
      dps rows.
Proof.
  apply (lookup_equals_direct_dot sample_query sample_codebooks 2 2).
  - reflexivity.
  - repeat constructor.
  - reflexivity.
  - discriminate.
  - reflexivity.
  - repeat constructor.
Defined.

(** ** Nearest-centroid assignment *)

Lemma nth_error_snoc {A : Type} (prev : list A) (d : A) (i : nat) (e : A) :
  nth_error (prev ++ [d]) i = Some e ->
  ((i < length prev)%nat /\ nth_error prev i = Some e) \/
  (i = length prev /\ e = d).
Proof.
  intros H. destruct (Nat.lt_ge_cases i (length prev)) as [Hi | Hi].
  - left. split; [exact Hi |]. now rewrite nth_error_app1 in H.
  - right. rewrite nth_error_app2 in H by exact Hi.
    destruct (i - length prev)%nat as [| k] eqn:E; simpl in H.
    + split; [lia | congruence].
    + destruct k; discriminate.
Qed.

Lemma argmin_from_spec (ds prev : list Q) (best : nat) (bestd : Q) :
  nth_error prev best = Some bestd ->
  (forall i d, nth_error prev i = Some d -> bestd <= d) ->
  (forall i d, (i < best)%nat -> nth_error prev i = Some d -> bestd < d) ->
  exists dk,
    nth_error (prev ++ ds) (argmin_from best bestd (length prev) ds)
    = Some dk /\
    (forall i d, nth_error (prev ++ ds) i = Some d -> dk <= d) /\
    (forall i d, (i < argmin_from best bestd (length prev) ds)%nat ->
                 nth_error (prev ++ ds) i = Some d -> dk < d).
Proof.
  revert prev best bestd.
  induction ds as [| d t IH]; intros prev best bestd Hb Hle Hlt; simpl.
  - rewrite app_nil_r. eauto.
  - assert (Hbl : (best < length prev)%nat)
      by (apply nth_error_Some; congruence).
    replace (prev ++ d :: t) with ((prev ++ [d]) ++ t)
      by (now rewrite <- app_assoc).
    replace (S (length prev)) with (length (prev ++ [d]))
      by (rewrite length_app; simpl; lia).
    destruct (Qcompare d bestd) eqn:E.
    + apply Qeq_alt in E. apply IH.
      * now rewrite nth_error_app1.
      * intros i e He. apply nth_error_snoc in He as [[_ He] | [_ ->]].
        -- eauto.
        -- rewrite E. apply Qle_refl.
      * intros i e Hi He. apply nth_error_snoc in He as [[_ He] | [? _]].
        -- eauto.
        -- lia.
    + apply Qlt_alt in E. apply IH.
      * rewrite nth_error_app2 by lia. now rewrite Nat.sub_diag.
      * intros i e He. apply nth_error_snoc in He as [[_ He] | [_ ->]].
        -- specialize (Hle i e He). lra.
        -- apply Qle_refl.
      * intros i e Hi He. apply nth_error_snoc in He as [[_ He] | [? _]].
        -- specialize (Hle i e He). lra.
        -- lia.
    + apply Qgt_alt in E. apply IH.
      * now rewrite nth_error_app1.
      * intros i e He. apply nth_error_snoc in He as [[_ He] | [_ ->]].
        -- eauto.
        -- lra.
      * intros i e Hi He. apply nth_error_snoc in He as [[_ He] | [? _]].
        -- eauto.
        -- lia.
Qed.

Lemma assign_nearest_first (s : sample) (centers : list sample) :
  centers <> [] -> nearest_first s centers (assign s centers).
Proof.
  intros Hne. unfold assign, nearest_first.
  destruct centers as [| c0 cs]; [congruence |]. simpl map.
  destruct (argmin_from_spec (map (sq_dist s) cs) [sq_dist s c0] 0
              (sq_dist s c0)) as (dk & Hk & Hle & Hlt).
  - reflexivity.
  - intros [| [| i]] d Hd; simpl in Hd; try discriminate.
    injection Hd as <-. apply Qle_refl.
  - intros i d Hi. lia.
  - simpl length in *.
    change ([sq_dist s c0] ++ map (sq_dist s) cs)
      with (map (sq_dist s) (c0 :: cs)) in *.
    set (k := argmin_from 0 (sq_dist s c0) 1 (map (sq_dist s) cs)) in *.
    rewrite nth_error_map in Hk.
    destruct (nth_error (c0 :: cs) k) as [ck |] eqn:Ek; [| discriminate].
    simpl in Hk. injection Hk as <-.
    exists ck. split; [reflexivity |]. split.
    + intros j c Hc. apply (Hle j).
      rewrite nth_error_map, Hc. reflexivity.
    + intros j c Hj Hc. apply (Hlt j); [exact Hj |].
      rewrite nth_error_map, Hc. reflexivity.
Qed.

Lemma assign_lt (s : sample) (centers : list sample) :
  centers <> [] -> (assign s centers < length centers)%nat.
Proof.
  intros H. destruct (assign_nearest_first s centers H) as (ck & Hk & _).
  apply nth_error_Some. congruence.
Qed.

(** ** Reshaping *)

Lemma firstn_app_len {A : Type} (l1 l2 : list A) (n : nat) :
  length l1 = n -> firstn n (l1 ++ l2) = l1.
Proof.
  intros <-. rewrite firstn_app, Nat.sub_diag, firstn_all. simpl.
  apply app_nil_r.
Qed.

Lemma skipn_app_len {A : Type} (l1 l2 : list A) (n : nat) :
  length l1 = n -> skipn n (l1 ++ l2) = l2.
Proof.
  intros <-. rewrite skipn_app, Nat.sub_diag, skipn_all. reflexivity.
Qed.

Lemma rows_of_concat_map {A B : Type} (f : A -> B) (x : list (list A))
  (cols : nat) :
  Forall (fun r => length r = cols) x ->
  rows_of (length x) cols (map f (concat x)) = map (map f) x.
Proof.
  induction 1 as [| r x Hr _ IH]; simpl; [reflexivity |].
  rewrite map_app.
  rewrite firstn_app_len by (now rewrite length_map).
  rewrite skipn_app_len by (now rewrite length_map).
  now rewrite IH.
Qed.

Lemma concat_length_rect {A : Type} (x : list (list A)) (cols : nat) :
  Forall (fun r => length r = cols) x ->
  length (concat x) = (length x * cols)%nat.
Proof.
  induction 1 as [| r x Hr _ IH]; simpl; [reflexivity |].
  rewrite length_app, IH, Hr. reflexivity.
Qed.

Lemma reshape_concat_map {A B : Type} (f : A -> B) (x : list (list A)) :
  rectangular x -> reshape (map f (concat x)) (shape x) = Ok (map (map f) x).
Proof.
  intros H. unfold reshape, shape. unfold rectangular, shape in H.
  simpl in H.
  rewrite length_map, (concat_length_rect x _ H), Nat.eqb_refl.
  now rewrite rows_of_concat_map.
Qed.

Lemma map_map_row_lengths {A B : Type} (h : A -> B) (x : list (list A)) :
  Forall2 (fun r r' => length r' = length r) x (map (map h) x).
Proof.
  induction x as [| r x IH]; simpl; constructor;
    [apply length_map | exact IH].
Qed.


(** ** The VQ and PQ cells *)

Section ClusteringFacts.

Variable fit : nat -> list sample -> KMeans.

Lemma vq_quantize_ok (data : matrix) (K : nat) :
  rectangular data ->
  let centers := cluster_centers_ (fit K (reshape_col data)) in
  vq_quantize fit predict_assign data K =
  Ok {| vq_codebook := concat centers;
        vq_indices := map (fun v => assign [v] centers) (concat data);
        vq_index_matrix := map (map (fun v => assign [v] centers)) data |}.
Proof.
  intros H centers. unfold vq_quantize, predict_assign, reshape_col.
  fold centers.
  rewrite map_map. rewrite (reshape_concat_map _ data H). reflexivity.
Qed.

Lemma pq_quantize_ok (x : matrix) (M pc : nat) :
  M <> O ->
  let sub_dim := (snd (shape x) / M)%nat in
  pq_quantize fit predict_assign x M pc =
  Ok {| pq_codebooks :=
          map (fun sub => cluster_centers_ (fit pc sub))
            (subspaces x M sub_dim);
        pq_codes :=
          stack_axis1 (length x)
            (map (fun sub => predict_assign (fit pc sub) sub)
               (subspaces x M sub_dim)) |}.
Proof.
  intros HM sub_dim. unfold pq_quantize, shape. simpl.
  apply Nat.eqb_neq in HM. rewrite HM.
  rewrite !map_map. reflexivity.
Qed.

(** Entry [(r, i)] of the PQ codes is the assignment of sub-vector [i] of
    row [r] in codebook [i]. *)
Lemma pq_code_entry (x : matrix) (M pc sub_dim r i : nat) :
  (r < length x)%nat -> (i < M)%nat ->
  let subs := subspaces x M sub_dim in
  let codebooks := map (fun sub => cluster_centers_ (fit pc sub)) subs in
  let codes :=
    stack_axis1 (length x)
      (map (fun sub => predict_assign (fit pc sub) sub) subs)
  in
  nth i (nth r codes []) O =
  assign (slice (i * sub_dim) ((i + 1) * sub_dim) (nth r x []))
    (nth i codebooks []) /\
  nth i codebooks [] = cluster_centers_ (fit pc (nth i subs [])).
Proof.
  intros Hr Hi subs codebooks codes.
  assert (Hsubs : length subs = M)
    by (unfold subs, subspaces; now rewrite length_map, length_seq).
  assert (Hsub : nth i subs [] =
                 map (slice (i * sub_dim) ((i + 1) * sub_dim)) x).
  { unfold subs, subspaces. now rewrite nth_map_seq. }
  assert (Hcb : nth i codebooks [] = cluster_centers_ (fit pc (nth i subs []))).
  { unfold codebooks.
    now rewrite (nth_map_in_range _ subs i [] []) by lia. }
  split; [| exact Hcb].
  unfold codes, stack_axis1.
  rewrite nth_map_seq by exact Hr.
  rewrite (nth_map_in_range _ _ i [] O)
    by (now rewrite length_map, Hsubs).
  rewrite (nth_map_in_range _ subs i [] []) by lia.
  unfold predict_assign.
  rewrite (nth_map_in_range _ (nth i subs []) r [] O)
    by (now rewrite Hsub, length_map).
  rewrite Hcb. f_equal. rewrite Hsub.
  exact (nth_map_in_range _ x r [] [] Hr).
Qed.

End ClusteringFacts.

(** C7: every scalar of the matrix the VQ cell encodes, and every sub-vector
    of every row the PQ cell encodes, gets the index of a nearest centroid
    of its codebook, the lowest such index: no centroid is closer, and every
    centroid of lower index is strictly farther. *)
Theorem assignments_are_nearest (fit : nat -> list sample -> KMeans)
  (data : matrix) (K : nat) (x : matrix) (M pc : nat) :
  rectangular data ->
  cluster_centers_ (fit K (reshape_col data)) <> [] ->
  M <> O ->
  Forall (fun sub => cluster_centers_ (fit pc sub) <> [])
    (subspaces x M (snd (shape x) / M)) ->
  (exists a,
      vq_quantize fit predict_assign data K = Ok a /\
      Forall2 (Forall2 (fun v k =>
                 nearest_first [v] (cluster_centers_ (fit K (reshape_col data)))
                   k))
        data (vq_index_matrix a)) /\
  (exists a,
      pq_quantize fit predict_assign x M pc = Ok a /\
      forall r i, (r < length x)%nat -> (i < M)%nat ->
        nearest_first
          (slice (i * (snd (shape x) / M)) ((i + 1) * (snd (shape x) / M))
             (nth r x []))
          (nth i (pq_codebooks a) [])
          (nth i (nth r (pq_codes a) []) O)).
Proof.
  intros Hrect Hne HM Hsubs. split.
  - eexists. split; [apply vq_quantize_ok; exact Hrect |]. simpl.
    apply Forall2_matrix_map. apply Forall_matrix_all. intros v.
    now apply assign_nearest_first.
  - eexists. split; [apply pq_quantize_ok; exact HM |]. simpl.
    intros r i Hr Hi.
    destruct (pq_code_entry fit x M pc (length (hd [] x) / M) r i Hr Hi)
      as [Hcode Hcb].
    rewrite Hcode. apply assign_nearest_first.
    rewrite Hcb. rewrite Forall_forall in Hsubs. apply Hsubs.
    apply nth_In. unfold subspaces. now rewrite length_map, length_seq.
Qed.

Lemma assignments_are_nearest_witness :
  (exists a,
      vq_quantize fit_first predict_assign create_sample_matrix 4 = Ok a /\
      Forall2 (Forall2 (fun v k =>
                 nearest_first [v]
                   (cluster_centers_
                      (fit_first 4 (reshape_col create_sample_matrix))) k))
        create_sample_matrix (vq_index_matrix a)) /\
  (exists a,
      pq_quantize fit_first predict_assign create_sample_matrix 2 3 = Ok a /\
      forall r i, (r < length create_sample_matrix)%nat -> (i < 2)%nat ->
        nearest_first
          (slice (i * (snd (shape create_sample_matrix) / 2))
             ((i + 1) * (snd (shape create_sample_matrix) / 2))
             (nth r create_sample_matrix []))
          (nth i (pq_codebooks a) [])
          (nth i (nth r (pq_codes a) []) O)).
Proof.
  apply (assignments_are_nearest fit_first create_sample_matrix 4
           create_sample_matrix 2 3).
  - repeat constructor.
  - simpl. discriminate.
  - discriminate.
  - repeat constructor; simpl; discriminate.
Defined.

(** ** Shape of a reshaped array *)






(** ** The notebook's recorded run *)

(** The outputs printed in the notebook, recomputed by the model: the
    quantizer in float32, to the digits printed. *)

Example recorded_quantized_matrix :
  exists s,
    F32.quantize_symmetric cast_trunc F32.create_sample_matrix 8 =
    Ok ([ [ 5; - (25); 0; 51 ];
          [ 127; - (61); 36; - (15) ];
          [ 46; 76; - (102); 10 ] ],
        Fin s) /\
    Qabs (s - (1968504 # 100000000)) < 5 # 1000000000.
Proof.
  eexists. split; [vm_compute; reflexivity |].
  vm_compute. reflexivity.
Qed.

Example recorded_reconstructed_matrix :
  exists codes scale,
    F32.quantize_symmetric cast_trunc F32.create_sample_matrix 8 =
    Ok (codes, scale) /\
    Forall2 (Forall2 (fun d p =>
               exists y, d = Fin y /\ Qabs (y - p) < 1 # 10000000))
      (F32.dequantize_symmetric codes scale)
      [ [ 9842519 # 100000000; - (492126 # 1000000); 0; 1003937 # 1000000 ];
        [ 25 # 10; - (12007874 # 10000000); 70866144 # 100000000;
          - (2952756 # 10000000) ];
        [ 9055118 # 10000000; 1496063 # 1000000; - (2007874 # 1000000);
          19685039 # 100000000 ] ].
Proof.
  eexists. eexists. split; [vm_compute; reflexivity |].
  vm_compute.
  repeat (constructor;
          try (eexists; split; [reflexivity | reflexivity])).
Qed.

(** With nine bits [qmax = 255]: the rounded quotient 255 does not fit int8
    and comes back as [-1] where the conversion keeps the low byte; the clip
    to [[-255, 255]] changes nothing. *)
Example nine_bits_wrap :
  exists s,
    F32.quantize_symmetric cast_trunc [[5 # 2; 1]] 9 =
    Ok ([[- (1); 102]], Fin s).
Proof. eexists. vm_compute. reflexivity. Qed.

(** With 1025 bits [qmax = 2^1024 - 1] is beyond the doubles and the
    division [max_val / qmax] raises. *)
Example overflow_at_1025_bits :
  F32.quantize_symmetric cast_trunc F32.create_sample_matrix 1025 =
  Raise OverflowError.
Proof. vm_compute. reflexivity. Qed.

(** The rounding at known values: 0.1 as a float32 and as a double, a tie
    at half the least subnormal, and the overflow threshold of float32. *)
Example rounding_of_known_values :
  F32.round32 (1 # 10) = Fin (13421773 # 134217728) /\
  F32.round64 (1 # 10) = Fin (3602879701896397 # 36028797018963968) /\
  F32.round32 (2 ^ (-150)) = Fin 0 /\
  F32.round32 (3 * 2 ^ (-150)) = Fin (Qred (2 ^ (-148))) /\
  F32.round32 (2 ^ 128 - 2 ^ 103) = PInf /\
  F32.round32 (2 ^ 128 - 2 ^ 103 - 1) = Fin (2 ^ 128 - 2 ^ 104) /\
  F32.round32 (- (2 ^ 128)) = NInf.
Proof. repeat split; vm_compute; reflexivity. Qed.

Example recorded_vq_indices :
  reshape
    (predict_assign sample_vq_kmeans (reshape_col create_sample_matrix))
    (shape create_sample_matrix) =
  Ok [ [ 3; 3; 3; 0 ]; [ 2; 1; 0; 3 ]; [ 0; 0; 1; 3 ] ]%nat.
Proof. reflexivity. Qed.

Example recorded_pq_codes :
  map (fun r =>
         map (fun i =>
                assign (query_sub_at (nth r create_sample_matrix []) 2 i)
                  (nth i sample_codebooks [])) (seq 0 2)) (seq 0 3) =
  sample_pq_codes.
Proof. reflexivity. Qed.

Example recorded_pq_reconstruction :
  reconstructed_pq sample_codebooks sample_pq_codes 2 =
  Ok create_sample_matrix.
Proof. reflexivity. Qed.

Example recorded_dot_products :
  (tables <- lookup_tables sample_query sample_codebooks 2 2 ;;
   dps <- dot_products tables sample_pq_codes 3 2 ;;
   Ok (map Qred dps)) =
  Ok [ 107 # 100; 67 # 100; - (77 # 100) ].
Proof. reflexivity. Qed.

(** ** More on rounding *)

Lemma inject_Z_sub (a b : Z) : inject_Z (a - b) == inject_Z a - inject_Z b.
Proof.
  unfold Z.sub. rewrite inject_Z_plus, inject_Z_opp. reflexivity.
Qed.

(** Round half to even, characterised: within a half of the argument, and
    even when exactly a half away. *)
Lemma round_half_even_sound (q : Q) :
  Qabs (q - inject_Z (round_half_even q)) <= 1 # 2 /\
  (Qabs (q - inject_Z (round_half_even q)) == 1 # 2 ->
   Z.even (round_half_even q) = true).
Proof.
  split; [apply round_half_even_error |].
  pose proof (Qfloor_le q) as Hlo.
  pose proof (Qlt_floor q) as Hhi.
  rewrite inject_Z_plus in Hhi. change (inject_Z 1) with 1 in Hhi.
  unfold round_half_even.
  destruct (Qcompare (q - inject_Z (Qfloor q)) (1 # 2)) eqn:E.
  - intros _. destruct (Z.even (Qfloor q)) eqn:Ev; [exact Ev |].
    rewrite Z.add_1_r, Z.even_succ, <- Z.negb_even, Ev. reflexivity.
  - apply Qlt_alt in E. intros H.
    rewrite Qabs_pos in H by lra. lra.
  - apply Qgt_alt in E. rewrite inject_Z_plus. change (inject_Z 1) with 1.
    intros H. rewrite Qabs_neg in H by lra. lra.
Qed.

Lemma round_half_even_unique (q : Q) (r : Z) :
  Qabs (q - inject_Z r) <= 1 # 2 ->
  (Qabs (q - inject_Z r) == 1 # 2 -> Z.even r = true) ->
  round_half_even q = r.
Proof.
  intros Hr Hre.
  destruct (round_half_even_sound q) as [Hs Hse].
  set (s := round_half_even q) in *.
  pose proof Hr as Hr'. pose proof Hs as Hs'.
  apply Qabs_Qle_condition in Hr'. apply Qabs_Qle_condition in Hs'.
  assert (Hd : (-1 <= s - r <= 1)%Z).
  { split; rewrite Zle_Qle, inject_Z_sub.
    - change (inject_Z (-1)) with (- (1)). lra.
    - change (inject_Z 1) with 1. lra. }
  assert (Hc : (s = r \/ s = r + 1 \/ s = r - 1)%Z) by lia.
  destruct Hc as [Hc | [Hc | Hc]]; [exact Hc | exfalso | exfalso].
  - assert (E1 : q - inject_Z s == - (1 # 2)).
    { subst s. rewrite Hc in *. rewrite inject_Z_plus in *.
      change (inject_Z 1) with 1 in *. lra. }
    assert (E2 : q - inject_Z r == 1 # 2).
    { rewrite Hc, inject_Z_plus in E1. change (inject_Z 1) with 1 in E1.
      lra. }
    assert (Ev1 : Z.even s = true) by (apply Hse; rewrite E1; reflexivity).
    assert (Ev2 : Z.even r = true) by (apply Hre; rewrite E2; reflexivity).
    rewrite Hc, Z.add_1_r, Z.even_succ, <- Z.negb_even, Ev2 in Ev1.
    discriminate.
  - assert (E1 : q - inject_Z s == 1 # 2).
    { subst s. rewrite Hc in *. rewrite inject_Z_sub in *.
      change (inject_Z 1) with 1 in *. lra. }
    assert (E2 : q - inject_Z r == - (1 # 2)).
    { rewrite Hc, inject_Z_sub in E1. change (inject_Z 1) with 1 in E1.
      lra. }
    assert (Ev1 : Z.even s = true) by (apply Hse; rewrite E1; reflexivity).
    assert (Ev2 : Z.even r = true) by (apply Hre; rewrite E2; reflexivity).
    rewrite Hc, Z.sub_1_r, Z.even_pred, <- Z.negb_even, Ev2 in Ev1.
    discriminate.
Qed.

Lemma round_half_even_comp (q q' : Q) :
  q == q' -> round_half_even q = round_half_even q'.
Proof.
  intros H. destruct (round_half_even_sound q') as [Hs Hse].
  apply round_half_even_unique; set (r := round_half_even q') in *.
  - setoid_rewrite H. exact Hs.
  - intros E. apply Hse. setoid_rewrite <- H. exact E.
Qed.

Lemma round_half_even_inject_Z (z : Z) : round_half_even (inject_Z z) = z.
Proof.
  apply round_half_even_unique.
  - setoid_replace (inject_Z z - inject_Z z) with 0 by ring. discriminate.
  - setoid_replace (inject_Z z - inject_Z z) with 0 by ring.
    intros H. discriminate H.
Qed.

Lemma round_half_even_opp (q : Q) :
  round_half_even (- q) = (- round_half_even q)%Z.
Proof.
  destruct (round_half_even_sound q) as [Hs Hse].
  assert (E : - q - inject_Z (- round_half_even q) ==
              - (q - inject_Z (round_half_even q)))
    by (rewrite inject_Z_opp; ring).
  apply round_half_even_unique.
  - now rewrite E, Qabs_opp.
  - rewrite E, Qabs_opp, Z.even_opp. exact Hse.
Qed.

Lemma round_half_even_monotone (q q' : Q) :
  q <= q' -> (round_half_even q <= round_half_even q')%Z.
Proof.
  intros H.
  destruct (round_half_even_sound q) as [Hs Hse].
  destruct (round_half_even_sound q') as [Hs' Hse'].
  set (r := round_half_even q) in *. set (r' := round_half_even q') in *.
  pose proof Hs as A. pose proof Hs' as A'.
  apply Qabs_Qle_condition in A. apply Qabs_Qle_condition in A'.
  destruct (Z_le_gt_dec r r') as [Hle | Hgt]; [exact Hle | exfalso].
  assert (Hd : inject_Z r - inject_Z r' <= 1) by lra.
  assert (Hr : r = (r' + 1)%Z).
  { rewrite <- inject_Z_sub in Hd. change 1 with (inject_Z 1) in Hd.
    rewrite <- Zle_Qle in Hd. lia. }
  assert (E1 : q - inject_Z r == - (1 # 2)).
  { rewrite Hr, inject_Z_plus in *. change (inject_Z 1) with 1 in *. lra. }
  assert (E2 : q' - inject_Z r' == 1 # 2).
  { rewrite Hr, inject_Z_plus in *. change (inject_Z 1) with 1 in *. lra. }
  assert (Ev1 : Z.even r = true) by (apply Hse; rewrite E1; reflexivity).
  assert (Ev2 : Z.even r' = true) by (apply Hse'; rewrite E2; reflexivity).
  rewrite Hr, Z.add_1_r, Z.even_succ, <- Z.negb_even, Ev2 in Ev1.
  discriminate.
Qed.

(** ** Element-wise relations on matrices *)

Lemma Forall2_matrix_map_Q (R : Q -> Q -> Prop) (h : Q -> Q) (x : matrix) :
  (forall v, R v (h v)) -> Forall2 (Forall2 R) x (map (map h) x).
Proof.
  intros H. apply Forall2_matrix_map. now apply Forall_matrix_all.
Qed.

Lemma Exists_matrix_map (P : Q -> Prop) (h : Q -> Q) (x : matrix) (v : Q) :
  In v (concat x) -> P (h v) -> Exists (Exists P) (map (map h) x).
Proof.
  intros Hin Hp. apply in_concat in Hin as (row & Hrow & Hv).
  apply Exists_exists. exists (map h row). split; [now apply in_map |].
  apply Exists_exists. exists (h v). split; [now apply in_map | exact Hp].
Qed.

Lemma Qabs_opp_eq (v : Q) : Qabs (- v) = Qabs v.
Proof.
  destruct v as [a d]. unfold Qabs, Qopp. simpl. now rewrite Z.abs_opp.
Qed.

Lemma max_val_opp (x : matrix) :
  map Qabs (concat (map (map Qopp) x)) = map Qabs (concat x).
Proof.
  rewrite <- concat_map, map_map. apply map_ext. apply Qabs_opp_eq.
Qed.

(** ** Degenerate bit widths *)

(** X5: with [num_bits = 1] and a non-zero maximum, [qmax] is 0, the scale
    is [+inf], every code is 0, and dequantize_symmetric turns these codes
    into NaN everywhere ([0 * inf]). *)
Theorem one_bit_degenerate (cast : fval -> Z) (x : matrix) (m : Q) :
  np_max (map Qabs (concat x)) = Ok m -> ~ m == 0 ->
  quantize_symmetric cast x 1 = Ok (map (map (fun _ => 0)) x, PInf) /\
  dequantize_symmetric (map (map (fun _ => 0)) x) PInf =
  map (map (fun _ => NaN)) x.
Proof.
  intros Hm Hne.
  pose proof (max_val_pos x m Hm Hne) as Hpos.
  split.
  - rewrite (quantize_symmetric_ok cast x 1 m Hm).
    assert (Hs : fdiv m (Fin (qmax_of 1)) = PInf).
    { simpl. apply Qgt_alt in Hpos. now rewrite Hpos. }
    rewrite Hs. reflexivity.
  - unfold dequantize_symmetric. rewrite map_map. apply map_ext.
    intros row. now rewrite map_map.
Qed.

Lemma one_bit_degenerate_witness :
  quantize_symmetric cast_trunc create_sample_matrix 1 =
  Ok (map (map (fun _ => 0)) create_sample_matrix, PInf) /\
  dequantize_symmetric (map (map (fun _ => 0)) create_sample_matrix) PInf =
  map (map (fun _ => NaN)) create_sample_matrix.
Proof.
  apply (one_bit_degenerate cast_trunc create_sample_matrix (25 # 10)).
  - reflexivity.
  - intros H. discriminate H.
Defined.

(** With crossed bounds the clip returns the upper bound. *)
Lemma np_clip_crossed (a hi : Q) : hi < 0 -> np_clip a (- hi) hi = hi.
Proof.
  intros H. unfold np_clip.
  pose proof (Q.le_max_r a (- hi)) as Hmax.
  unfold Qmin, GenericMinMax.gmin.
  assert (E : Qcompare (Qmax a (- hi)) hi = Gt) by (apply Qgt_alt; lra).
  now rewrite E.
Qed.

(** ** Powers of two

    From here on, the float32 quantizer: rounding to a binary format and
    its error, Python's arithmetic on [num_bits], and the results on
    [F32.quantize_symmetric] and [F32.dequantize_symmetric]. *)

Lemma pow2_pos (z : Z) : 0 < 2 ^ z.
Proof. apply Qpower_0_lt. reflexivity. Qed.

Lemma pow2_nonzero (z : Z) : ~ 2 ^ z == 0.
Proof. pose proof (pow2_pos z). lra. Qed.

Lemma pow2_plus (a b : Z) : 2 ^ (a + b) == 2 ^ a * 2 ^ b.
Proof. apply Qpower_plus. discriminate. Qed.

Lemma pow2_succ (z : Z) : 2 ^ (z + 1) == 2 * 2 ^ z.
Proof. rewrite pow2_plus. change (2 ^ 1) with 2. ring. Qed.

Lemma pow2_pred (z : Z) : 2 ^ (z - 1) == 2 ^ z / 2.
Proof.
  setoid_replace (2 ^ z) with (2 ^ (z - 1 + 1)).
  - rewrite pow2_succ. field.
  - replace (z - 1 + 1)%Z with z by lia. reflexivity.
Qed.

Lemma pow2_half (z : Z) : 2 ^ (z - 1) == (1 # 2) * 2 ^ z.
Proof. rewrite pow2_pred. field. Qed.

Lemma pow2_le (a b : Z) : (a <= b)%Z -> 2 ^ a <= 2 ^ b.
Proof. intros H. apply Qpower_le_compat_l; [exact H | discriminate]. Qed.

Lemma pow2_lt_inv (a b : Z) : 2 ^ a < 2 ^ b -> (a < b)%Z.
Proof. intros H. apply (Qpower_lt_compat_l_inv 2); [exact H | reflexivity]. Qed.

Lemma pow2_inject_Z (n : Z) : (0 <= n)%Z -> inject_Z (2 ^ n) == 2 ^ n.
Proof. intros H. rewrite Zpower_Qpower by exact H. reflexivity. Qed.

Lemma Qdiv_lt_cross (a b c d : Q) :
  0 < b -> 0 < d -> a * d < c * b -> a / b < c / d.
Proof.
  intros Hb Hd H.
  apply Qlt_shift_div_l; [exact Hd |].
  setoid_replace (a / b * d) with (a * d / b) by (field; lra).
  apply Qlt_shift_div_r; [exact Hb | exact H].
Qed.

(** ** The binary logarithm *)

Lemma Qlog2_spec (a : Q) :
  0 < a -> 2 ^ F32.Qlog2 a <= a /\ a < 2 ^ (F32.Qlog2 a + 1).
Proof.
  intros Ha. unfold F32.Qlog2.
  destruct a as [n d].
  assert (Hn : (0 < n)%Z).
  { unfold Qlt in Ha; simpl in Ha. lia. }
  cbn [Qnum Qden].
  set (ln := Z.log2 n). set (ld := Z.log2 (Z.pos d)).
  destruct (Z.log2_spec n Hn) as [Hn1 Hn2].
  destruct (Z.log2_spec (Z.pos d) eq_refl) as [Hd1 Hd2].
  fold ln in Hn1, Hn2. fold ld in Hd1, Hd2.
  assert (Hln : (0 <= ln)%Z) by apply Z.log2_nonneg.
  assert (Hld : (0 <= ld)%Z) by apply Z.log2_nonneg.
  rewrite Zle_Qle, pow2_inject_Z in Hn1, Hd1 by assumption.
  rewrite Zlt_Qlt in Hn2, Hd2.
  unfold Z.succ in Hn2, Hd2.
  rewrite pow2_inject_Z, pow2_succ in Hn2, Hd2 by lia.
  pose proof (pow2_pos ln) as Pn. pose proof (pow2_pos ld) as Pd.
  set (N := inject_Z n) in *. set (D := inject_Z (Z.pos d)) in *.
  set (PN := 2 ^ ln) in *. set (PD := 2 ^ ld) in *.
  assert (Ea : n # d == N / D) by apply Qmake_Qdiv.
  assert (E0 : 2 ^ (ln - ld) == PN / PD).
  { apply Qpower_minus. discriminate. }
  assert (HD : 0 < D) by lra.
  assert (Hlo : PN / (2 * PD) < N / D).
  { apply Qdiv_lt_cross; [lra | exact HD | nra]. }
  assert (Hhi : N / D < 2 * PN / PD).
  { apply Qdiv_lt_cross; [exact HD | lra | nra]. }
  destruct (Qle_bool (2 ^ (ln - ld)) (n # d)) eqn:E.
  - apply Qle_bool_iff in E. split; [exact E |].
    rewrite pow2_succ, E0, Ea.
    setoid_replace (2 * (PN / PD)) with (2 * PN / PD) by (field; lra).
    exact Hhi.
  - assert (E' : ~ 2 ^ (ln - ld) <= n # d).
    { intros C. apply Qle_bool_iff in C. congruence. }
    apply Qnot_le_lt in E'.
    split.
    + rewrite pow2_pred, E0, Ea.
      setoid_replace (PN / PD / 2) with (PN / (2 * PD)) by (field; lra).
      apply Qlt_le_weak. exact Hlo.
    + replace (ln - ld - 1 + 1)%Z with (ln - ld)%Z by lia. exact E'.
Qed.

Lemma Qlog2_ge (a : Q) (k : Z) : 0 < a -> 2 ^ k <= a -> (k <= F32.Qlog2 a)%Z.
Proof.
  intros Ha Hk. destruct (Qlog2_spec a Ha) as [_ Hhi].
  assert (H : 2 ^ k < 2 ^ (F32.Qlog2 a + 1)) by lra.
  apply pow2_lt_inv in H. lia.
Qed.

Lemma Qlog2_lt (a : Q) (k : Z) : 0 < a -> a < 2 ^ k -> (F32.Qlog2 a < k)%Z.
Proof.
  intros Ha Hk. destruct (Qlog2_spec a Ha) as [Hlo _].
  assert (H : 2 ^ F32.Qlog2 a < 2 ^ k) by lra.
  apply pow2_lt_inv in H. exact H.
Qed.

(** ** Rounding to a binary format *)

Lemma Qabs_pos_of_nonzero (q : Q) : ~ q == 0 -> 0 < Qabs q.
Proof.
  intros H. destruct (Qlt_le_dec 0 (Qabs q)) as [L | L]; [exact L |].
  exfalso. apply H. apply Qabs_Qle_condition in L. lra.
Qed.

Lemma binary_nearest_error (prec emin : Z) (q : Q) :
  Qabs (F32.binary_nearest prec emin q - q) <=
  2 ^ F32.binary_exponent prec emin q / 2.
Proof.
  unfold F32.binary_nearest.
  set (e := F32.binary_exponent prec emin q).
  pose proof (pow2_pos e) as P. set (p := 2 ^ e) in *.
  pose proof (round_half_even_error (q / p)) as H.
  set (m := inject_Z (round_half_even (q / p))) in *.
  setoid_replace (m * p - q) with (- ((q / p - m) * p)) by (field; lra).
  rewrite Qabs_opp, Qabs_Qmult, (Qabs_pos p) by lra.
  setoid_replace (p / 2) with ((1 # 2) * p) by field.
  apply Qmult_le_compat_r; lra.
Qed.

Lemma binary_exponent_cases (prec emin : Z) (q : Q) :
  ~ q == 0 ->
  F32.binary_exponent prec emin q = emin \/
  2 ^ (F32.binary_exponent prec emin q + (prec - 1)) <= Qabs q.
Proof.
  intros Hq. unfold F32.binary_exponent.
  destruct (Z.max_spec (F32.Qlog2 (Qabs q) - (prec - 1)) emin)
    as [[_ ->] | [_ ->]].
  - left; reflexivity.
  - right.
    replace (F32.Qlog2 (Qabs q) - (prec - 1) + (prec - 1))%Z
      with (F32.Qlog2 (Qabs q)) by lia.
    apply Qlog2_spec. apply Qabs_pos_of_nonzero. exact Hq.
Qed.

Lemma binary_exponent_normal (prec emin : Z) (q : Q) :
  2 ^ (emin + (prec - 1)) <= Qabs q ->
  2 ^ (F32.binary_exponent prec emin q + (prec - 1)) <= Qabs q.
Proof.
  intros H.
  assert (Hpos : 0 < Qabs q).
  { pose proof (pow2_pos (emin + (prec - 1))). lra. }
  pose proof (Qlog2_ge _ _ Hpos H) as L.
  unfold F32.binary_exponent.
  rewrite Z.max_l by lia.
  replace (F32.Qlog2 (Qabs q) - (prec - 1) + (prec - 1))%Z
    with (F32.Qlog2 (Qabs q)) by lia.
  apply Qlog2_spec. exact Hpos.
Qed.

Lemma half_ulp_relative (prec e : Z) (a : Q) :
  2 ^ (e + (prec - 1)) <= a -> 2 ^ e / 2 <= 2 ^ (- prec) * a.
Proof.
  intros H.
  assert (E : 2 ^ e / 2 == 2 ^ (- prec) * 2 ^ (e + (prec - 1))).
  { rewrite <- pow2_plus. rewrite <- pow2_pred.
    replace (- prec + (e + (prec - 1)))%Z with (e - 1)%Z by lia. reflexivity. }
  rewrite E. apply Qmult_le_l; [apply pow2_pos | exact H].
Qed.

(** The error of rounding to nearest: half a unit in the last place,
    relative in the normal range and absolute below it. *)
Lemma binary_nearest_error_normal (prec emin : Z) (q : Q) :
  2 ^ (emin + (prec - 1)) <= Qabs q ->
  Qabs (F32.binary_nearest prec emin q - q) <= 2 ^ (- prec) * Qabs q.
Proof.
  intros H.
  eapply Qle_trans; [apply binary_nearest_error |].
  apply half_ulp_relative. apply binary_exponent_normal. exact H.
Qed.

Lemma binary_nearest_error_general (prec emin : Z) (q : Q) :
  ~ q == 0 ->
  Qabs (F32.binary_nearest prec emin q - q) <=
  2 ^ (- prec) * Qabs q + 2 ^ (emin - 1).
Proof.
  intros Hq.
  eapply Qle_trans; [apply binary_nearest_error |].
  pose proof (pow2_pos (emin - 1)) as P1.
  pose proof (pow2_pos (- prec)) as P2.
  pose proof (Qabs_nonneg q) as N.
  destruct (binary_exponent_cases prec emin q Hq) as [-> | H].
  - rewrite <- pow2_pred. nra.
  - apply (half_ulp_relative prec) in H. lra.
Qed.

Lemma round_binary_zero (prec emin emax : Z) (q : Q) :
  q == 0 -> F32.round_binary prec emin emax q = Fin 0.
Proof.
  intros H. unfold F32.round_binary.
  replace (Qeq_bool q 0) with true; [reflexivity |].
  symmetry. apply Qeq_bool_iff. exact H.
Qed.

Lemma round_binary_finite (prec emin emax : Z) (q : Q) :
  ~ q == 0 ->
  Qabs (F32.binary_nearest prec emin q) < 2 ^ emax ->
  F32.round_binary prec emin emax q =
  Fin (Qred (F32.binary_nearest prec emin q)).
Proof.
  intros Hq H. unfold F32.round_binary.
  destruct (Qeq_bool q 0) eqn:E.
  - apply Qeq_bool_iff in E. contradiction.
  - destruct (Qle_bool (2 ^ emax) (Qabs (F32.binary_nearest prec emin q)))
      eqn:E2.
    + apply Qle_bool_iff in E2. lra.
    + reflexivity.
Qed.

(** A value that is finite after rounding is within the error bound. *)
Lemma round_binary_error (prec emin emax : Z) (q bound : Q) :
  Qabs q <= bound ->
  bound + (2 ^ (- prec) * bound + 2 ^ (emin - 1)) < 2 ^ emax ->
  exists r, F32.round_binary prec emin emax q = Fin r /\
            Qabs (r - q) <= 2 ^ (- prec) * Qabs q + 2 ^ (emin - 1).
Proof.
  intros Hb Hmax.
  pose proof (pow2_pos (emin - 1)) as P1.
  pose proof (pow2_pos (- prec)) as P2.
  pose proof (Qabs_nonneg q) as N.
  destruct (Qeq_dec q 0) as [Z0 | NZ].
  - exists 0. split; [apply round_binary_zero; exact Z0 |].
    setoid_replace (0 - q) with 0 by lra. simpl. nra.
  - pose proof (binary_nearest_error_general prec emin q NZ) as E.
    set (r := F32.binary_nearest prec emin q) in *.
    exists (Qred r). split.
    + apply round_binary_finite; [exact NZ |]. fold r.
      pose proof (Qabs_triangle (r - q) q) as T.
      setoid_replace (r - q + q) with r in T by ring.
      assert (2 ^ (- prec) * Qabs q <= 2 ^ (- prec) * bound) by nra.
      lra.
    + rewrite Qred_correct. exact E.
Qed.

Lemma round_binary_error_normal (prec emin emax : Z) (q bound : Q) :
  2 ^ (emin + (prec - 1)) <= Qabs q ->
  Qabs q <= bound ->
  bound + 2 ^ (- prec) * bound < 2 ^ emax ->
  exists r, F32.round_binary prec emin emax q = Fin r /\
            Qabs (r - q) <= 2 ^ (- prec) * Qabs q.
Proof.
  intros Hn Hb Hmax.
  pose proof (pow2_pos (- prec)) as P2.
  pose proof (pow2_pos (emin + (prec - 1))) as P3.
  assert (NZ : ~ q == 0).
  { intros C. rewrite C in Hn. simpl in Hn. lra. }
  pose proof (binary_nearest_error_normal prec emin q Hn) as E.
  set (r := F32.binary_nearest prec emin q) in *.
  exists (Qred r). split.
  - apply round_binary_finite; [exact NZ |]. fold r.
    pose proof (Qabs_triangle (r - q) q) as T.
    setoid_replace (r - q + q) with r in T by ring.
    assert (2 ^ (- prec) * Qabs q <= 2 ^ (- prec) * bound) by nra.
    lra.
  - rewrite Qred_correct. exact E.
Qed.

(** Turn the powers of two of the goal and the hypotheses into numerals. *)
Ltac pow2_numerals :=
  repeat match goal with
         | |- context [2 ^ ?z] =>
             let v := eval vm_compute in (2 ^ z) in change (2 ^ z) with v
         | H : context [2 ^ ?z] |- _ =>
             let v := eval vm_compute in (2 ^ z) in change (2 ^ z) with v in H
         end.

(** ** float32 *)

Lemma round32_error (q : Q) :
  Qabs q <= 2 ^ 127 * (1 + 2 ^ (-24)) ->
  exists r, F32.round32 q = Fin r /\
            Qabs (r - q) <= 2 ^ (-24) * Qabs q + 2 ^ (-150).
Proof.
  intros H. unfold F32.round32.
  apply (round_binary_error 24 (-149) 128 q _ H).
  vm_compute. reflexivity.
Qed.

Lemma round32_error_normal (q : Q) :
  2 ^ (-126) <= Qabs q -> Qabs q <= 2 ^ 127 ->
  exists r, F32.round32 q = Fin r /\ Qabs (r - q) <= 2 ^ (-24) * Qabs q.
Proof.
  intros H1 H2. unfold F32.round32.
  apply (round_binary_error_normal 24 (-149) 128 q _ H1 H2).
  vm_compute. reflexivity.
Qed.

Lemma round64_error (q : Q) :
  Qabs q <= 2 ^ 1023 ->
  exists d, F32.round64 q = Fin d /\
            Qabs (d - q) <= 2 ^ (-53) * Qabs q + 2 ^ (-1075).
Proof.
  intros H. unfold F32.round64.
  apply (round_binary_error 53 (-1074) 1024 q _ H).
  vm_compute. reflexivity.
Qed.

Lemma inject_Z_range (n : Z) (a b : Z) :
  (a <= n <= b)%Z -> inject_Z a <= inject_Z n <= inject_Z b.
Proof. intros [H1 H2]. rewrite <- !Zle_Qle. lia. Qed.

Lemma Qeq_bool_false (a : Q) : ~ a == 0 -> Qeq_bool a 0 = false.
Proof.
  intros H. destruct (Qeq_bool a 0) eqn:E; [| reflexivity].
  apply Qeq_bool_iff in E. contradiction.
Qed.

(** The scale at a bit width from 2 to 8, in the normal range. *)
Lemma scale_normal (m : Q) (n : Z) :
  (1 <= n <= 127)%Z ->
  2 ^ (-119) <= m -> m <= 2 ^ 127 * inject_Z n ->
  exists s, F32.fdiv m (Fin (inject_Z n)) = Fin s /\
            Qabs (s - m / inject_Z n) <= 2 ^ (-24) * (m / inject_Z n) /\
            2 ^ (-126) <= s.
Proof.
  intros Hn Hlo Hhi.
  apply (inject_Z_range n 1 127) in Hn.
  change (inject_Z 1) with 1 in Hn. change (inject_Z 127) with 127 in Hn.
  set (N := inject_Z n) in *.
  assert (HN : 0 < N) by lra.
  assert (Hw1 : 2 ^ (-126) * (1 + 2 ^ (-7)) <= m / N).
  { apply Qle_shift_div_l; [exact HN |].
    pow2_numerals. lra. }
  assert (Hw2 : m / N <= 2 ^ 127).
  { apply Qle_shift_div_r; [exact HN | exact Hhi]. }
  set (w := m / N) in *.
  assert (Hw : 0 < w) by (pow2_numerals; lra).
  assert (Ew : Qabs w == w) by (apply Qabs_pos; lra).
  destruct (round32_error_normal w) as (s & Hs & He).
  { rewrite Ew. pow2_numerals. lra. }
  { rewrite Ew. exact Hw2. }
  exists s. unfold F32.fdiv.
  rewrite Qeq_bool_false by lra. fold w.
  rewrite Ew in He.
  split; [exact Hs |]. split; [exact He |].
  apply Qabs_Qle_condition in He. pow2_numerals. lra.
Qed.

(** The rounded quotient of an element by the scale. *)
Lemma quotient_rounded (v m s : Q) (n : Z) :
  (1 <= n <= 127)%Z -> 0 < m -> Qabs v <= m ->
  Qabs (s - m / inject_Z n) <= 2 ^ (-24) * (m / inject_Z n) ->
  exists q, F32.fdiv v (Fin s) = Fin q /\
            (- n <= round_half_even q <= n)%Z /\
            Qabs (inject_Z (round_half_even q) - v / s) <=
            (1 # 2) + 2 ^ (-17).
Proof.
  intros Hn Hm Hv Hs.
  pose proof (inject_Z_range n 1 127 Hn) as HN.
  change (inject_Z 1) with 1 in HN. change (inject_Z 127) with 127 in HN.
  set (N := inject_Z n) in *.
  assert (Em : m == m / N * N) by (field; lra).
  set (w := m / N) in *.
  assert (Hw : 0 < w).
  { unfold w. apply Qlt_shift_div_l; lra. }
  apply Qabs_Qle_condition in Hs. pow2_numerals.
  assert (Hspos : 0 < s) by lra.
  set (T := N * (1 + (2 # 16777216))).
  assert (HmT : m <= T * s).
  { unfold T. rewrite Em. nra. }
  assert (Ht : Qabs (v / s) <= T).
  { apply Qabs_Qle_condition in Hv. apply Qabs_Qle_condition. split.
    - apply Qle_shift_div_l; [exact Hspos | lra].
    - apply Qle_shift_div_r; [exact Hspos | lra]. }
  set (t := v / s) in *.
  assert (HT : T <= 128) by (unfold T; lra).
  destruct (round32_error t) as (q & Hq & He).
  { pow2_numerals. lra. }
  exists q. unfold F32.fdiv.
  rewrite Qeq_bool_false by lra. fold t.
  split; [exact Hq |].
  pose proof (round_half_even_error q) as Hr.
  set (c := round_half_even q) in *.
  pow2_numerals.
  apply Qabs_Qle_condition in Hr, He, Ht.
  assert (Hc : Qabs (inject_Z c - t) <= (1 # 2) + (1 # 131072)).
  { apply Qabs_Qle_condition. pose proof (Qabs_nonneg t).
    assert (Qabs t <= T) by (apply Qabs_Qle_condition; exact Ht).
    unfold T in *. split; lra. }
  split; [| exact Hc].
  apply Qabs_Qle_condition in Hc.
  assert (H1 : inject_Z c < inject_Z (n + 1)).
  { rewrite inject_Z_plus. change (inject_Z 1) with 1. fold N.
    unfold T in *. lra. }
  assert (H2 : inject_Z (- n - 1) < inject_Z c).
  { unfold Z.sub. rewrite inject_Z_plus, inject_Z_opp.
    change (inject_Z (- (1))) with (- (1)). fold N.
    unfold T in *. lra. }
  rewrite <- Zlt_Qlt in H1, H2. lia.
Qed.

(** An int8 code is a float32. *)
Lemma round32_int8 (z : Z) :
  (-128 <= z <= 127)%Z -> F32.round32 (inject_Z z) = Fin (inject_Z z).
Proof.
  intros Hz.
  assert (All : forallb (fun k =>
            match F32.round32 (inject_Z (Z.of_nat k - 128)) with
            | Fin (a # b) =>
                ((a =? Z.of_nat k - 128)%Z && (b =? 1)%positive)%bool
            | _ => false
            end) (seq 0 256) = true) by (vm_compute; reflexivity).
  rewrite forallb_forall in All.
  specialize (All (Z.to_nat (z + 128))).
  replace (Z.of_nat (Z.to_nat (z + 128)) - 128)%Z with z in All by lia.
  assert (In (Z.to_nat (z + 128)) (seq 0 256)) as I by (apply in_seq; lia).
  specialize (All I).
  destruct (F32.round32 (inject_Z z)) as [[a b] | | |]; try discriminate.
  apply andb_true_iff in All as [A B].
  apply Z.eqb_eq in A. apply Pos.eqb_eq in B. subst. reflexivity.
Qed.

(** The product of a code and the scale. *)
Lemma product_rounded (c : Z) (s : Q) :
  (-127 <= c <= 127)%Z -> 2 ^ (-126) <= s ->
  Qabs (inject_Z c * s) <= 2 ^ 127 * (1 + 2 ^ (-24)) ->
  exists y, F32.fmul (F32.round32 (inject_Z c)) (Fin s) = Fin y /\
            Qabs (y - inject_Z c * s) <= 2 ^ (-17) * s.
Proof.
  intros Hc Hs Hb.
  rewrite round32_int8 by lia. cbn [F32.fmul].
  destruct (round32_error (inject_Z c * s) Hb) as (y & Hy & He).
  exists y. split; [exact Hy |].
  eapply Qle_trans; [exact He |].
  assert (HC : Qabs (inject_Z c) <= 127).
  { apply Qabs_Qle_condition.
    apply (inject_Z_range c (-127) 127) in Hc.
    change (inject_Z (-127)) with (- (127)) in Hc.
    change (inject_Z 127) with 127 in Hc. exact Hc. }
  assert (Hspos : 0 < s) by (pow2_numerals; lra).
  rewrite Qabs_Qmult, (Qabs_pos s) by lra.
  pose proof (Qabs_nonneg (inject_Z c)) as N0.
  set (C := Qabs (inject_Z c)) in *.
  pow2_numerals. nra.
Qed.

(** An element restored from its code. *)
Lemma restored_error (v s y : Q) (c : Z) :
  0 < s ->
  Qabs (inject_Z c - v / s) <= (1 # 2) + 2 ^ (-17) ->
  Qabs (y - inject_Z c * s) <= 2 ^ (-17) * s ->
  Qabs (v - y) <= s / 2 + 2 ^ (-16) * s.
Proof.
  intros Hs H1 H2.
  assert (E : v == v / s * s) by (field; lra).
  set (t := v / s) in *. set (C := inject_Z c) in *.
  apply Qabs_Qle_condition in H1, H2. apply Qabs_Qle_condition.
  setoid_replace (s / 2) with ((1 # 2) * s) by field.
  pow2_numerals. rewrite E. split; nra.
Qed.

(** ** Sign and outcome of a rounding *)

Lemma Fin_inj (a b : Q) : Fin a = Fin b -> a = b.
Proof. intros H. now inversion H. Qed.

Lemma binary_nearest_nonpos (prec emin : Z) (q : Q) :
  q <= 0 -> F32.binary_nearest prec emin q <= 0.
Proof.
  intros H. unfold F32.binary_nearest.
  set (e := F32.binary_exponent prec emin q).
  pose proof (pow2_pos e) as P.
  assert (Hq : q / 2 ^ e <= 0).
  { apply Qle_shift_div_r; [exact P | lra]. }
  apply round_half_even_monotone in Hq.
  change (round_half_even 0) with 0%Z in Hq.
  rewrite Zle_Qle in Hq. change (inject_Z 0) with 0 in Hq.
  set (r := inject_Z (round_half_even (q / 2 ^ e))) in *. nra.
Qed.

Lemma round_binary_nonpos (prec emin emax : Z) (q r : Q) :
  q <= 0 -> F32.round_binary prec emin emax q = Fin r -> r <= 0.
Proof.
  intros Hq. unfold F32.round_binary.
  destruct (Qeq_bool q 0).
  - intros E. injection E as <-. lra.
  - destruct (Qle_bool _ _).
    + destruct (Qle_bool 0 q); discriminate.
    + intros E. apply Fin_inj in E. rewrite <- E.
      setoid_rewrite Qred_correct.
      apply binary_nearest_nonpos. exact Hq.
Qed.

(** Away from zero a rounding is an infinity or a finite non-zero value. *)
Lemma round_binary_nonzero (prec emin emax : Z) (q : Q) :
  2 ^ (- prec) * Qabs q + 2 ^ (emin - 1) < Qabs q ->
  match F32.round_binary prec emin emax q with
  | Fin r => ~ r == 0
  | NaN => False
  | _ => True
  end.
Proof.
  intros H.
  pose proof (pow2_pos (- prec)) as P1. pose proof (pow2_pos (emin - 1)) as P2.
  pose proof (Qabs_nonneg q) as N.
  assert (NZ : ~ q == 0).
  { intros C. rewrite C in H. simpl in H. lra. }
  unfold F32.round_binary. rewrite (Qeq_bool_false q NZ).
  destruct (Qle_bool _ _).
  - destruct (Qle_bool 0 q); exact I.
  - rewrite Qred_correct. intros C.
    pose proof (binary_nearest_error_general prec emin q NZ) as E.
    rewrite C in E. setoid_replace (0 - q) with (- q) in E by ring.
    rewrite Qabs_opp in E. lra.
Qed.

Lemma round_binary_not_nan (prec emin emax : Z) (q : Q) :
  F32.round_binary prec emin emax q <> NaN.
Proof.
  unfold F32.round_binary.
  destruct (Qeq_bool q 0); [discriminate |].
  destruct (Qle_bool _ _); [| discriminate].
  destruct (Qle_bool 0 q); discriminate.
Qed.

(** ** Python's arithmetic on num_bits *)

Lemma py_float_raise (z : Z) (e : exn) :
  F32.py_float z = Raise e -> e = OverflowError.
Proof.
  unfold F32.py_float. destruct (F32.round64 (inject_Z z)); congruence.
Qed.

Lemma round64_error_wide (q : Q) :
  Qabs q <= 2 ^ 1023 * (1 + 2 ^ (-53)) ->
  exists d, F32.round64 q = Fin d /\
            Qabs (d - q) <= 2 ^ (-53) * Qabs q + 2 ^ (-1075).
Proof.
  intros H. unfold F32.round64.
  apply (round_binary_error 53 (-1074) 1024 q _ H).
  vm_compute. reflexivity.
Qed.

Lemma double_error (q : Q) :
  Qabs q <= 2 ^ 1023 ->
  Qabs (F32.double q - q) <= 2 ^ (-53) * Qabs q + 2 ^ (-1075).
Proof.
  intros H. unfold F32.double.
  destruct (round64_error q H) as (d & -> & E). exact E.
Qed.

Lemma py_float_ok (z : Z) :
  (- 2 ^ 1023 - 1 <= z <= 2 ^ 1023)%Z ->
  exists d, F32.py_float z = Ok d /\
            Qabs (d - inject_Z z) <=
            2 ^ (-53) * Qabs (inject_Z z) + 2 ^ (-1075).
Proof.
  intros Hz. unfold F32.py_float.
  destruct (round64_error_wide (inject_Z z)) as (d & -> & E).
  - apply Qabs_Qle_condition.
    apply (inject_Z_range z (- 2 ^ 1023 - 1) (2 ^ 1023)) in Hz.
    assert (E1 : inject_Z (- 2 ^ 1023 - 1) == - 2 ^ 1023 - 1).
    { vm_compute. reflexivity. }
    assert (E2 : inject_Z (2 ^ 1023) == 2 ^ 1023).
    { vm_compute. reflexivity. }
    rewrite E1, E2 in Hz.
    set (P := 2 ^ 1023) in *.
    assert (2 <= P * 2 ^ (-53)) by (unfold P; vm_compute; discriminate).
    lra.
  - exists d. split; [reflexivity | exact E].
Qed.

Lemma py_float_nonpos (z : Z) (d : Q) :
  (z <= 0)%Z -> F32.py_float z = Ok d -> d <= 0.
Proof.
  intros Hz. unfold F32.py_float.
  destruct (F32.round64 (inject_Z z)) as [r | | |] eqn:E; try discriminate.
  intros H. injection H as <-.
  apply (round_binary_nonpos 53 (-1074) 1024 (inject_Z z)); [| exact E].
  rewrite Zle_Qle in Hz. exact Hz.
Qed.

Lemma qmax_of_raise (num_bits : Z) (e : exn) :
  F32.qmax_of num_bits = Raise e -> e = OverflowError.
Proof.
  unfold F32.qmax_of. destruct (1 <=? num_bits)%Z; [discriminate |].
  destruct (F32.py_float (num_bits - 1)) eqn:E; cbn [bind]; [discriminate |].
  intros H. injection H as <-. apply (py_float_raise _ _ E).
Qed.

Lemma float32_of_raise (n : F32.pynum) (e : exn) :
  F32.float32_of n = Raise e -> e = OverflowError.
Proof.
  destruct n as [z | d]; cbn [F32.float32_of]; [| discriminate].
  destruct (F32.py_float z) eqn:E; cbn [bind]; [discriminate |].
  intros H. injection H as <-. apply (py_float_raise _ _ E).
Qed.

Lemma qmax_of_int (num_bits : Z) :
  (1 <= num_bits)%Z ->
  F32.qmax_of num_bits = Ok (F32.PyInt (2 ^ (num_bits - 1) - 1)).
Proof.
  intros H. unfold F32.qmax_of.
  replace (1 <=? num_bits)%Z with true; [reflexivity |].
  symmetry. apply Z.leb_le. exact H.
Qed.

Lemma pow2_Z_bounds (num_bits : Z) :
  (1 <= num_bits <= 1024)%Z -> (1 <= 2 ^ (num_bits - 1) <= 2 ^ 1023)%Z.
Proof.
  intros H. split.
  - change 1%Z with (2 ^ 0)%Z at 1. apply Z.pow_le_mono_r; lia.
  - apply Z.pow_le_mono_r; lia.
Qed.

(** The operand of the division at a bit width from 1 to 1024. *)
Lemma float32_of_int (num_bits : Z) :
  (1 <= num_bits <= 1024)%Z ->
  exists q32, F32.float32_of (F32.PyInt (2 ^ (num_bits - 1) - 1)) = Ok q32 /\
              (num_bits = 1%Z -> q32 = Fin 0) /\
              ((2 <= num_bits)%Z ->
               match q32 with
               | Fin r => ~ r == 0
               | NaN => False
               | _ => True
               end).
Proof.
  intros H. pose proof (pow2_Z_bounds num_bits H) as B.
  set (z := (2 ^ (num_bits - 1) - 1)%Z) in *.
  destruct (py_float_ok z) as (d & Hd & E); [lia |].
  cbn [F32.float32_of]. rewrite Hd. cbn [bind].
  exists (F32.round32 d). split; [reflexivity |]. split.
  - intros ->. vm_compute in Hd. injection Hd as <-. reflexivity.
  - intros H2.
    assert (Hz : (1 <= z)%Z).
    { unfold z.
      assert ((2 ^ 1 <= 2 ^ (num_bits - 1))%Z)
        by (apply Z.pow_le_mono_r; lia).
      change (2 ^ 1)%Z with 2%Z in *. lia. }
    rewrite Zle_Qle in Hz. change (inject_Z 1) with 1 in Hz.
    set (Zq := inject_Z z) in *.
    rewrite (Qabs_pos Zq) in E by lra.
    apply Qabs_Qle_condition in E.
    assert (Hd1 : (1 # 2) <= d).
    { assert (2 ^ (-1075) <= 1 # 4) by (vm_compute; discriminate).
      assert (2 ^ (-53) <= 1 # 4) by (vm_compute; discriminate).
      set (a := 2 ^ (-1075)) in *. set (b := 2 ^ (-53)) in *.
      pose proof (pow2_pos (-53)). fold b in H3. nra. }
    unfold F32.round32. apply round_binary_nonzero.
    rewrite (Qabs_pos d) by lra.
    assert (2 ^ (-149 - 1) <= 1 # 4) by (vm_compute; discriminate).
    set (a := 2 ^ (-149 - 1)) in *.
    change (2 ^ (- (24))) with (1 # 16777216). lra.
Qed.

Lemma Qlog2_unique (a : Q) (k : Z) :
  2 ^ k <= a -> a < 2 ^ (k + 1) -> F32.Qlog2 a = k.
Proof.
  intros H1 H2.
  assert (Ha : 0 < a) by (pose proof (pow2_pos k); lra).
  pose proof (Qlog2_ge a k Ha H1). pose proof (Qlog2_lt a (k + 1) Ha H2). lia.
Qed.

Lemma Qabs_inject_Z_nonneg (n : Z) :
  (0 <= n)%Z -> Qabs (inject_Z n) = inject_Z n.
Proof. intros H. unfold Qabs, inject_Z. now rewrite Z.abs_eq. Qed.

(** [2^k - 1] rounds up to [2^k] once [k] exceeds the precision. *)
Lemma binary_nearest_pow2_pred (prec emin k : Z) :
  (1 <= prec)%Z -> (prec + 2 <= k)%Z -> (emin <= k - prec)%Z ->
  F32.binary_nearest prec emin (inject_Z (2 ^ k - 1)) == 2 ^ k.
Proof.
  intros Hp Hk He.
  assert (Ez : inject_Z (2 ^ k - 1) == 2 ^ k - 1).
  { rewrite inject_Z_sub, pow2_inject_Z by lia. reflexivity. }
  pose proof (pow2_pos k) as Pk. pose proof (pow2_pos (k - 1)) as Pk1.
  pose proof (pow2_half k) as Epred.
  assert (H2 : 2 <= 2 ^ k).
  { change 2 with (2 ^ 1) at 1. apply pow2_le. lia. }
  assert (Ea : Qabs (inject_Z (2 ^ k - 1)) = inject_Z (2 ^ k - 1)).
  { apply Qabs_inject_Z_nonneg.
    assert (0 < 2 ^ k)%Z by (apply Z.pow_pos_nonneg; lia). lia. }
  set (z := inject_Z (2 ^ k - 1)) in *.
  assert (Hz : 0 < z) by lra.
  assert (L : F32.Qlog2 (Qabs z) = (k - 1)%Z).
  { rewrite Ea. apply Qlog2_unique.
    - rewrite Epred, Ez. lra.
    - replace (k - 1 + 1)%Z with k by lia. lra. }
  unfold F32.binary_nearest, F32.binary_exponent. rewrite L.
  rewrite Z.max_l by lia.
  replace (k - 1 - (prec - 1))%Z with (k - prec)%Z by lia.
  pose proof (pow2_pos (k - prec)) as Pe.
  assert (Epow : 2 ^ k == 2 ^ prec * 2 ^ (k - prec)).
  { rewrite <- pow2_plus. replace (prec + (k - prec))%Z with k by lia.
    reflexivity. }
  assert (Hr : round_half_even (z / 2 ^ (k - prec)) = (2 ^ prec)%Z).
  { assert (Ed : z / 2 ^ (k - prec) - inject_Z (2 ^ prec) ==
                 - 2 ^ (prec - k)).
    { rewrite pow2_inject_Z by lia. rewrite Ez, Epow.
      replace (prec - k)%Z with (- (k - prec))%Z by lia.
      rewrite Qpower_opp. field. apply pow2_nonzero. }
    assert (Hsmall : 2 ^ (prec - k) < 1 # 2).
    { apply Qle_lt_trans with (2 ^ (-2)); [apply pow2_le; lia |].
      reflexivity. }
    pose proof (pow2_pos (prec - k)) as Pd.
    apply round_half_even_unique.
    - rewrite Ed, Qabs_opp, Qabs_pos; lra.
    - rewrite Ed, Qabs_opp, Qabs_pos by lra. intros C. lra. }
  rewrite Hr, pow2_inject_Z by lia. rewrite Epow. reflexivity.
Qed.

(** [float(2**k - 1)] raises from [k = 1024]. *)
Lemma py_float_overflow (k : Z) :
  (1024 <= k)%Z -> F32.py_float (2 ^ k - 1) = Raise OverflowError.
Proof.
  intros Hk.
  pose proof (binary_nearest_pow2_pred 53 (-1074) k) as N.
  specialize (N ltac:(lia) ltac:(lia) ltac:(lia)).
  assert (Ez : inject_Z (2 ^ k - 1) == 2 ^ k - 1).
  { rewrite inject_Z_sub, pow2_inject_Z by lia. reflexivity. }
  assert (H2 : 2 ^ 1024 <= 2 ^ k) by (apply pow2_le; exact Hk).
  assert (B : 2 <= 2 ^ 1024) by (vm_compute; discriminate).
  unfold F32.py_float, F32.round64, F32.round_binary.
  set (z := inject_Z (2 ^ k - 1)) in *.
  rewrite (Qeq_bool_false z) by lra.
  replace (Qle_bool (2 ^ 1024) (Qabs (F32.binary_nearest 53 (-1074) z)))
    with true.
  - destruct (Qle_bool 0 z); reflexivity.
  - symmetry. apply Qle_bool_iff. rewrite N, Qabs_pos; lra.
Qed.

(** ** qmax below one bit *)

Lemma double_near (q lo hi : Q) :
  - (2) <= lo -> hi <= 2 -> lo <= q <= hi ->
  lo - (1 # 100) <= F32.double q <= hi + (1 # 100).
Proof.
  intros Hlo Hhi Hq.
  assert (Ha : Qabs q <= 2) by (apply Qabs_Qle_condition; lra).
  pose proof (double_error q) as E.
  assert (B : 2 <= 2 ^ 1023) by (vm_compute; discriminate).
  specialize (E ltac:(lra)).
  assert (E1 : 2 ^ (-53) <= 1 # 1000) by (vm_compute; discriminate).
  assert (E2 : 2 ^ (-1075) <= 1 # 1000) by (vm_compute; discriminate).
  pose proof (pow2_pos (-53)) as P1.
  set (a := 2 ^ (-53)) in *. set (b := 2 ^ (-1075)) in *.
  pose proof (Qabs_nonneg q) as N.
  apply Qabs_Qle_condition in E. set (A := Qabs q) in *.
  clear B. split; nra.
Qed.

Lemma pow2_floor_nonpos (e : Q) : e <= 0 -> 0 <= 2 ^ Qfloor e <= 1.
Proof.
  intros He. pose proof (pow2_pos (Qfloor e)) as P.
  split; [lra |].
  change 1 with (2 ^ 0). apply pow2_le.
  pose proof (Qfloor_le e) as F.
  assert (H : inject_Z (Qfloor e) <= inject_Z 0)
    by (change (inject_Z 0) with 0; lra).
  rewrite <- Zle_Qle in H. exact H.
Qed.

Lemma pow2_floor_neg (e : Q) : e < 0 -> 0 <= 2 ^ Qfloor e <= 1 # 2.
Proof.
  intros He. pose proof (pow2_pos (Qfloor e)) as P.
  split; [lra |].
  change (1 # 2) with (2 ^ (-1)). apply pow2_le.
  pose proof (Qfloor_le e) as F.
  assert (H : inject_Z (Qfloor e) < inject_Z 0)
    by (change (inject_Z 0) with 0; lra).
  rewrite <- Zlt_Qlt in H. lia.
Qed.

(** Whenever [2**(num_bits - 1) - 1] is computed on floats, it is a double
    between -1 and 0, within the rounding. *)
Lemma qmax_of_float (num_bits : Z) (qm : F32.pynum) :
  (num_bits <= 0)%Z -> F32.qmax_of num_bits = Ok qm ->
  exists d, qm = F32.PyFloat d /\ - (2) <= d <= 1.
Proof.
  intros Hb. unfold F32.qmax_of.
  replace (1 <=? num_bits)%Z with false by (symmetry; apply Z.leb_gt; lia).
  destruct (F32.py_float (num_bits - 1)) as [e |] eqn:E; cbn [bind];
    [| discriminate].
  intros H. injection H as <-.
  eexists. split; [reflexivity |].
  pose proof (py_float_nonpos (num_bits - 1) e ltac:(lia) E) as He.
  pose proof (pow2_floor_nonpos e He) as HP.
  set (P := 2 ^ Qfloor e) in *.
  pose proof (double_near P 0 1 ltac:(lra) ltac:(lra) HP) as Hp.
  set (p := F32.double P) in *.
  assert (Hp1 : - (101 # 100) <= p - 1 <= 1 # 100) by lra.
  pose proof (double_near (p - 1) (- (101 # 100)) (1 # 100)
                ltac:(lra) ltac:(lra) Hp1) as Hd.
  lra.
Qed.

(** Down to [num_bits = -2^1023] it is computed, and is negative. *)
Lemma qmax_of_float_ok (num_bits : Z) :
  (- 2 ^ 1023 <= num_bits <= 0)%Z ->
  exists d, F32.qmax_of num_bits = Ok (F32.PyFloat d) /\
            - (2) <= d <= - (4 # 10).
Proof.
  intros Hb. unfold F32.qmax_of.
  replace (1 <=? num_bits)%Z with false by (symmetry; apply Z.leb_gt; lia).
  destruct (py_float_ok (num_bits - 1)) as (e & -> & E); [lia |].
  cbn [bind]. eexists. split; [reflexivity |].
  assert (He : e < 0).
  { assert (Hz : (num_bits - 1 <= -1)%Z) by lia.
    rewrite Zle_Qle in Hz. change (inject_Z (-1)) with (- (1)) in Hz.
    set (z := inject_Z (num_bits - 1)) in *.
    rewrite (Qabs_neg z) in E by lra.
    apply Qabs_Qle_condition in E.
    assert (E1 : 2 ^ (-53) <= 1 # 1000) by (vm_compute; discriminate).
    assert (E2 : 2 ^ (-1075) <= 1 # 1000) by (vm_compute; discriminate).
    pose proof (pow2_pos (-53)) as P1.
    set (a := 2 ^ (-53)) in *. set (b := 2 ^ (-1075)) in *. nra. }
  pose proof (pow2_floor_neg e He) as HP.
  set (P := 2 ^ Qfloor e) in *.
  pose proof (double_near P 0 (1 # 2) ltac:(lra) ltac:(lra) HP) as Hp.
  set (p := F32.double P) in *.
  assert (Hp1 : - (101 # 100) <= p - 1 <= - (49 # 100)) by lra.
  pose proof (double_near (p - 1) (- (101 # 100)) (- (49 # 100))
                ltac:(lra) ltac:(lra) Hp1) as Hd.
  lra.
Qed.

Lemma float32_of_float (d : Q) :
  - (2) <= d <= - (4 # 10) ->
  exists q32, F32.float32_of (F32.PyFloat d) = Ok q32 /\
              match q32 with
              | Fin r => ~ r == 0
              | NaN => False
              | _ => True
              end.
Proof.
  intros Hd. exists (F32.round32 d). split; [reflexivity |].
  unfold F32.round32. apply round_binary_nonzero.
  rewrite (Qabs_neg d) by lra.
  assert (2 ^ (-149 - 1) <= 1 # 10) by (vm_compute; discriminate).
  set (a := 2 ^ (-149 - 1)) in *.
  change (2 ^ (- (24))) with (1 # 16777216). lra.
Qed.

(** ** The float32 quantizer: outcomes *)

Section F32Facts.

Variable cast : fval -> Z.

(** The codes and the scale as functions of the maximum and of [qmax]. *)
Lemma f32_quantize_ok (x : matrix) (num_bits : Z) (m : Q) (qm : F32.pynum)
  (q32 : fval) :
  np_max (map Qabs (concat x)) = Ok m ->
  F32.qmax_of num_bits = Ok qm ->
  F32.float32_of qm = Ok q32 ->
  F32.quantize_symmetric cast x num_bits =
  Ok (map (map (fun v =>
                  np_clip
                    (inject_Z (F32.quantize_elem cast (F32.fdiv m q32) v))
                    (- F32.pynum_val qm) (F32.pynum_val qm))) x,
      F32.fdiv m q32).
Proof.
  intros H1 H2 H3. unfold F32.quantize_symmetric.
  rewrite H1. cbn [bind]. rewrite H2. cbn [bind]. rewrite H3. cbn [bind].
  f_equal. f_equal. rewrite map_map. apply map_ext. intros r.
  now rewrite map_map.
Qed.

Lemma f32_quantize_empty (x : matrix) (num_bits : Z) :
  concat x = [] -> F32.quantize_symmetric cast x num_bits = Raise ValueError.
Proof. intros H. unfold F32.quantize_symmetric. now rewrite H. Qed.

(** What a call that returns went through. *)
Lemma f32_quantize_inv (x : matrix) (num_bits : Z) (codes : matrix)
  (scale : fval) :
  F32.quantize_symmetric cast x num_bits = Ok (codes, scale) ->
  exists m qm q32,
    np_max (map Qabs (concat x)) = Ok m /\
    F32.qmax_of num_bits = Ok qm /\
    F32.float32_of qm = Ok q32 /\
    scale = F32.fdiv m q32 /\
    codes =
    map (map (fun v =>
                np_clip
                  (inject_Z (F32.quantize_elem cast (F32.fdiv m q32) v))
                  (- F32.pynum_val qm) (F32.pynum_val qm))) x.
Proof.
  intros H.
  destruct (np_max (map Qabs (concat x))) as [m |] eqn:H1;
    [| unfold F32.quantize_symmetric in H; rewrite H1 in H; discriminate].
  destruct (F32.qmax_of num_bits) as [qm |] eqn:H2;
    [| unfold F32.quantize_symmetric in H; rewrite H1, H2 in H; discriminate].
  destruct (F32.float32_of qm) as [q32 |] eqn:H3;
    [| unfold F32.quantize_symmetric in H; rewrite H1, H2 in H;
       cbn [bind] in H; rewrite H3 in H; discriminate].
  rewrite (f32_quantize_ok x num_bits m qm q32 H1 H2 H3) in H.
  injection H as <- <-.
  exists m, qm, q32. repeat split; assumption.
Qed.

(** The only exceptions: ValueError from [np.max] on a matrix without
    elements, and otherwise OverflowError from the arithmetic on
    [num_bits]. *)
Lemma f32_quantize_raise (x : matrix) (num_bits : Z) (e : exn) :
  F32.quantize_symmetric cast x num_bits = Raise e ->
  (concat x = [] /\ e = ValueError) \/
  (concat x <> [] /\ e = OverflowError /\
   (F32.qmax_of num_bits = Raise OverflowError \/
    exists qm, F32.qmax_of num_bits = Ok qm /\
               F32.float32_of qm = Raise OverflowError)).
Proof.
  unfold F32.quantize_symmetric.
  destruct (concat x) as [| a t] eqn:Ex.
  - simpl. intros H. injection H as <-. left. split; reflexivity.
  - cbn [map np_max bind].
    destruct (F32.qmax_of num_bits) as [qm |] eqn:H2; cbn [bind].
    + destruct (F32.float32_of qm) as [q32 |] eqn:H3; cbn [bind];
        [discriminate |].
      intros H. injection H as <-.
      pose proof (float32_of_raise _ _ H3) as ->.
      right. split; [discriminate |]. split; [reflexivity |].
      right. exists qm. split; [reflexivity | exact H3].
    + intros H. injection H as <-.
      pose proof (qmax_of_raise _ _ H2) as ->.
      right. split; [discriminate |]. split; [reflexivity |].
      left. reflexivity.
Qed.

(** From 1 to 1024 bits, and from 0 down to [-2^1023], the arithmetic on
    [num_bits] succeeds. *)
Lemma f32_qmax_ok (num_bits : Z) :
  (- 2 ^ 1023 <= num_bits <= 1024)%Z ->
  exists qm q32,
    F32.qmax_of num_bits = Ok qm /\ F32.float32_of qm = Ok q32 /\
    (num_bits = 1%Z -> q32 = Fin 0) /\
    (num_bits <> 1%Z ->
     match q32 with
     | Fin r => ~ r == 0
     | NaN => False
     | _ => True
     end) /\
    ((1 <= num_bits)%Z -> qm = F32.PyInt (2 ^ (num_bits - 1) - 1)) /\
    ((num_bits <= 0)%Z ->
     exists d, qm = F32.PyFloat d /\ - (2) <= d <= - (4 # 10)).
Proof.
  intros Hb. destruct (Z_le_gt_dec 1 num_bits) as [H1 | H0].
  - destruct (float32_of_int num_bits ltac:(lia)) as (q32 & Hq & Ha & Hb2).
    exists (F32.PyInt (2 ^ (num_bits - 1) - 1)), q32.
    split; [apply qmax_of_int; exact H1 |]. split; [exact Hq |].
    split; [exact Ha |]. split; [intros; apply Hb2; lia |].
    split; [reflexivity | intros; lia].
  - destruct (qmax_of_float_ok num_bits ltac:(lia)) as (d & Hd & Bd).
    destruct (float32_of_float d Bd) as (q32 & Hq & Hn).
    exists (F32.PyFloat d), q32.
    split; [exact Hd |]. split; [exact Hq |].
    split; [intros; lia |]. split; [intros; exact Hn |].
    split; [intros; lia |]. intros _. exists d. split; [reflexivity | exact Bd].
Qed.

Lemma f32_quantize_returns (x : matrix) (num_bits : Z) :
  concat x <> [] -> (- 2 ^ 1023 <= num_bits <= 1024)%Z ->
  exists codes scale,
    F32.quantize_symmetric cast x num_bits = Ok (codes, scale).
Proof.
  intros Hne Hb.
  destruct (np_max_nonempty _ (map_concat_nonempty x Hne)) as [m Hm].
  destruct (f32_qmax_ok num_bits Hb) as (qm & q32 & H1 & H2 & _).
  rewrite (f32_quantize_ok x num_bits m qm q32 Hm H1 H2). eauto.
Qed.

(** From 1025 bits the division raises. *)
Lemma f32_quantize_overflow (x : matrix) (num_bits : Z) :
  concat x <> [] -> (1025 <= num_bits)%Z ->
  F32.quantize_symmetric cast x num_bits = Raise OverflowError.
Proof.
  intros Hne Hb.
  destruct (np_max_nonempty _ (map_concat_nonempty x Hne)) as [m Hm].
  unfold F32.quantize_symmetric. rewrite Hm. cbn [bind].
  rewrite qmax_of_int by lia. cbn [bind F32.float32_of].
  rewrite py_float_overflow by lia. reflexivity.
Qed.

End F32Facts.

(** An int8 value clipped with bounds [-qmax], [qmax] stays in the int8
    range whenever [qmax >= -128], also where the bounds are wider than
    int8 or cross each other. *)
Lemma np_clip_int8_wide (z : Z) (qmax : Q) :
  (-128 <= z <= 127)%Z -> - (128) <= qmax ->
  - (128) <= np_clip (inject_Z z) (- qmax) qmax <= 127.
Proof.
  intros [Hlo Hhi] Hq.
  rewrite Zle_Qle in Hlo, Hhi.
  change (inject_Z (-128)) with (- (128)) in Hlo.
  change (inject_Z 127) with 127 in Hhi.
  unfold np_clip.
  destruct (Q.max_spec (inject_Z z) (- qmax)) as [[H1 E1] | [H1 E1]];
    destruct (Q.min_spec (Qmax (inject_Z z) (- qmax)) qmax)
      as [[H2 E2] | [H2 E2]];
    split; lra.
Qed.

Lemma pow2_Z_pos (k : Z) : (0 <= k)%Z -> (1 <= 2 ^ k)%Z.
Proof.
  intros H. change 1%Z with (2 ^ 0)%Z. apply Z.pow_le_mono_r; lia.
Qed.

(** ** Range of the codes *)

(** C3 (as amended): for every matrix with a non-zero maximum absolute value
    and every [num_bits >= 1], every code quantize_symmetric returns lies
    in [[-qmax, qmax]] with [qmax = 2^(num_bits-1) - 1].  The call returns
    up to [num_bits = 1024]; from 1025 the division by [qmax] raises
    OverflowError and no code is returned. *)
Theorem codes_within_qmax (cast : fval -> Z) (x : matrix) (num_bits : Z)
  (m : Q) :
  (1 <= num_bits)%Z ->
  np_max (map Qabs (concat x)) = Ok m -> ~ m == 0 ->
  F32.qmax_of num_bits = Ok (F32.PyInt (2 ^ (num_bits - 1) - 1)) /\
  (forall codes scale,
      F32.quantize_symmetric cast x num_bits = Ok (codes, scale) ->
      Forall (Forall (fun c =>
                        - inject_Z (2 ^ (num_bits - 1) - 1) <= c <=
                        inject_Z (2 ^ (num_bits - 1) - 1))) codes) /\
  ((num_bits <= 1024)%Z ->
   exists codes scale,
     F32.quantize_symmetric cast x num_bits = Ok (codes, scale)) /\
  ((1025 <= num_bits)%Z ->
   F32.quantize_symmetric cast x num_bits = Raise OverflowError).
Proof.
  intros Hb Hm _.
  assert (Hne : concat x <> []).
  { intros C. rewrite C in Hm. discriminate. }
  pose proof (qmax_of_int num_bits Hb) as Hq.
  split; [exact Hq |]. split; [| split].
  - intros codes scale H.
    destruct (f32_quantize_inv cast x num_bits codes scale H)
      as (m' & qm & q32 & _ & Hq' & _ & _ & ->).
    rewrite Hq in Hq'. injection Hq' as <-. cbn [F32.pynum_val].
    apply Forall_matrix_map. apply Forall_matrix_all. intros v.
    apply np_clip_between.
    pose proof (pow2_Z_pos (num_bits - 1) ltac:(lia)) as P.
    assert (P' : (0 <= 2 ^ (num_bits - 1) - 1)%Z) by lia.
    rewrite Zle_Qle in P'. change (inject_Z 0) with 0 in P'.
    set (Q := inject_Z (2 ^ (num_bits - 1) - 1)) in *. lra.
  - intros H. apply f32_quantize_returns; [exact Hne | lia].
  - intros H. apply f32_quantize_overflow; assumption.
Qed.

Lemma codes_within_qmax_witness :
  F32.qmax_of 8 = Ok (F32.PyInt (2 ^ (8 - 1) - 1)) /\
  (forall codes scale,
      F32.quantize_symmetric cast_trunc F32.create_sample_matrix 8 =
      Ok (codes, scale) ->
      Forall (Forall (fun c =>
                        - inject_Z (2 ^ (8 - 1) - 1) <= c <=
                        inject_Z (2 ^ (8 - 1) - 1))) codes) /\
  ((8 <= 1024)%Z ->
   exists codes scale,
     F32.quantize_symmetric cast_trunc F32.create_sample_matrix 8 =
     Ok (codes, scale)) /\
  ((1025 <= 8)%Z ->
   F32.quantize_symmetric cast_trunc F32.create_sample_matrix 8 =
   Raise OverflowError).
Proof.
  apply (codes_within_qmax cast_trunc F32.create_sample_matrix 8 (5 # 2)).
  - lia.
  - vm_compute. reflexivity.
  - intros H. discriminate H.
Defined.

(** C3, as stated, fails at [num_bits = 0]: [qmax = 2**(-1) - 1 = -0.5], the
    clip bounds cross, and the code [-0.5] lies below the lower bound
    [-qmax = 0.5]. *)
Lemma codes_outside_qmax_at_num_bits_0 :
  F32.qmax_of 0 = Ok (F32.PyFloat (- (1 # 2))) /\
  F32.quantize_symmetric cast_trunc [[1]] 0 =
  Ok ([[- (1 # 2)]], Fin (- (2))) /\
  ~ (- (- (1 # 2)) <= - (1 # 2) <= - (1 # 2)).
Proof.
  split; [vm_compute; reflexivity |].
  split; [vm_compute; reflexivity |].
  intros [H _]. vm_compute in H. apply H. reflexivity.
Qed.

(** C8: whatever [num_bits] is, every code quantize_symmetric returns lies
    in the int8 range [[-128, 127]], whatever the int8 conversion yields
    out of range and also where [qmax] exceeds 127.  A call that does not
    return raises ValueError (a matrix without elements) or OverflowError
    (a bit width above 1024 or below [-2^1023]). *)
Theorem codes_within_int8 (cast : fval -> Z) (x : matrix) (num_bits : Z) :
  (forall codes scale,
      F32.quantize_symmetric cast x num_bits = Ok (codes, scale) ->
      Forall (Forall (fun c => - (128) <= c <= 127)) codes) /\
  (forall e,
      F32.quantize_symmetric cast x num_bits = Raise e ->
      (concat x = [] /\ e = ValueError) \/
      (concat x <> [] /\ e = OverflowError /\
       ~ (- 2 ^ 1023 <= num_bits <= 1024)%Z)) /\
  (concat x <> [] -> (- 2 ^ 1023 <= num_bits <= 1024)%Z ->
   exists codes scale,
     F32.quantize_symmetric cast x num_bits = Ok (codes, scale)).
Proof.
  split; [| split].
  - intros codes scale H.
    destruct (f32_quantize_inv cast x num_bits codes scale H)
      as (m & qm & q32 & _ & Hq & _ & _ & ->).
    apply Forall_matrix_map. apply Forall_matrix_all. intros v.
    apply np_clip_int8_wide; [apply astype_int8_range |].
    destruct (Z_le_gt_dec 1 num_bits) as [H1 | H0].
    + rewrite (qmax_of_int num_bits H1) in Hq. injection Hq as <-.
      cbn [F32.pynum_val].
      pose proof (pow2_Z_pos (num_bits - 1) ltac:(lia)) as P.
      assert (P' : (0 <= 2 ^ (num_bits - 1) - 1)%Z) by lia.
      rewrite Zle_Qle in P'. change (inject_Z 0) with 0 in P'.
      set (Q := inject_Z (2 ^ (num_bits - 1) - 1)) in *. lra.
    + destruct (qmax_of_float num_bits qm ltac:(lia) Hq) as (d & -> & Hd).
      cbn [F32.pynum_val]. lra.
  - intros e H.
    destruct (f32_quantize_raise cast x num_bits e H)
      as [[Hx He] | (Hx & He & _)]; [left; split; assumption | right].
    split; [exact Hx |]. split; [exact He |].
    intros Hb.
    destruct (f32_quantize_returns cast x num_bits Hx Hb) as (c & s & Hr).
    congruence.
  - apply f32_quantize_returns.
Qed.

(** ** Missing checks *)

(** C5 (as amended): with [num_bits < 2] quantize_symmetric raises no
    configuration error; it does not look at [num_bits] before computing.
    On a matrix without elements it raises ValueError; on any other matrix
    it returns codes and a scale down to [num_bits = -2^1023], and the only
    exception it can raise below is OverflowError, from the power
    [2**(num_bits - 1)]. *)
Theorem quantize_symmetric_no_num_bits_check (cast : fval -> Z) (x : matrix)
  (num_bits : Z) :
  (num_bits < 2)%Z ->
  (concat x = [] ->
   F32.quantize_symmetric cast x num_bits = Raise ValueError) /\
  (concat x <> [] -> (- 2 ^ 1023 <= num_bits)%Z ->
   exists codes scale,
     F32.quantize_symmetric cast x num_bits = Ok (codes, scale)) /\
  (concat x <> [] ->
   forall e, F32.quantize_symmetric cast x num_bits = Raise e ->
             e = OverflowError /\ (num_bits < - 2 ^ 1023)%Z /\
             F32.qmax_of num_bits = Raise OverflowError).
Proof.
  intros Hb. split; [apply f32_quantize_empty |]. split.
  - intros Hne Hlo. apply f32_quantize_returns; [exact Hne | lia].
  - intros Hne e H.
    destruct (f32_quantize_raise cast x num_bits e H)
      as [[Hx _] | (_ & He & Hq)]; [contradiction |].
    assert (Hlt : (num_bits < - 2 ^ 1023)%Z).
    { destruct (Z_lt_ge_dec num_bits (- 2 ^ 1023)) as [L | G]; [exact L |].
      destruct (f32_quantize_returns cast x num_bits Hne ltac:(lia))
        as (c & s & Hr).
      congruence. }
    split; [exact He |]. split; [exact Hlt |].
    destruct Hq as [Hq | (qm & Hq & Hf)]; [exact Hq |].
    exfalso.
    destruct (qmax_of_float num_bits qm ltac:(lia) Hq) as (d & -> & _).
    discriminate Hf.
Qed.

Lemma quantize_symmetric_no_num_bits_check_witness :
  (concat F32.create_sample_matrix = [] ->
   F32.quantize_symmetric cast_trunc F32.create_sample_matrix 1 =
   Raise ValueError) /\
  (concat F32.create_sample_matrix <> [] -> (- 2 ^ 1023 <= 1)%Z ->
   exists codes scale,
     F32.quantize_symmetric cast_trunc F32.create_sample_matrix 1 =
     Ok (codes, scale)) /\
  (concat F32.create_sample_matrix <> [] ->
   forall e,
     F32.quantize_symmetric cast_trunc F32.create_sample_matrix 1 = Raise e ->
     e = OverflowError /\ (1 < - 2 ^ 1023)%Z /\
     F32.qmax_of 1 = Raise OverflowError).
Proof.
  apply (quantize_symmetric_no_num_bits_check cast_trunc
           F32.create_sample_matrix 1).
  lia.
Defined.

(** C5, as stated, fails: with [num_bits = 1] the call returns ([qmax = 0],
    an infinite scale, all codes 0) instead of raising. *)
Lemma num_bits_1_returns :
  F32.quantize_symmetric cast_trunc F32.create_sample_matrix 1 =
  Ok ([[0; 0; 0; 0]; [0; 0; 0; 0]; [0; 0; 0; 0]], PInf).
Proof. vm_compute. reflexivity. Qed.

Lemma f32_fdiv_zero (m : Q) (q32 : fval) :
  m == 0 ->
  match q32 with
  | Fin r => ~ r == 0
  | NaN => False
  | _ => True
  end ->
  F32.fdiv m q32 = Fin 0.
Proof.
  intros Hm. destruct q32 as [r | | |]; cbn [F32.fdiv]; try tauto.
  intros Hr. rewrite (Qeq_bool_false r Hr).
  apply round_binary_zero. rewrite Hm. field. exact Hr.
Qed.

Lemma f32_fdiv_zero_zero (v : Q) : v == 0 -> F32.fdiv v (Fin 0) = NaN.
Proof.
  intros Hv. cbn [F32.fdiv]. change (Qeq_bool 0 0) with true. cbv iota.
  apply Qeq_alt in Hv. now rewrite Hv.
Qed.

(** C4 (as amended): on a matrix whose elements are all zero (and that has
    at least one) quantize_symmetric raises no zero-range error and
    substitutes nothing.  For [num_bits] from [-2^1023] to 1024 it returns:
    the scale is zero (NaN when [num_bits = 1], where [qmax = 0]), every
    quotient [x / scale] is NaN, and every code is the clipped int8
    conversion of NaN.  From 1025 bits it raises the OverflowError of the
    division by [qmax], as on any other matrix. *)
Theorem zero_matrix_propagates (cast : fval -> Z) (x : matrix)
  (num_bits : Z) :
  concat x <> [] ->
  Forall (Forall (fun v => v == 0)) x ->
  ((- 2 ^ 1023 <= num_bits <= 1024)%Z ->
   exists qm scale,
     F32.qmax_of num_bits = Ok qm /\
     F32.quantize_symmetric cast x num_bits =
     Ok (map (map (fun _ =>
                     np_clip (inject_Z (astype_int8 cast NaN))
                       (- F32.pynum_val qm) (F32.pynum_val qm))) x,
         scale) /\
     (num_bits = 1%Z -> scale = NaN) /\
     (num_bits <> 1%Z -> scale = Fin 0) /\
     Forall (Forall (fun v => F32.fdiv v scale = NaN)) x) /\
  ((1025 <= num_bits)%Z ->
   F32.quantize_symmetric cast x num_bits = Raise OverflowError).
Proof.
  intros Hne Hz. split; [| apply f32_quantize_overflow; exact Hne].
  intros Hb.
  destruct (np_max_nonempty _ (map_concat_nonempty x Hne)) as [m Hm].
  pose proof (max_val_zero x m Hz Hm) as Hm0.
  destruct (f32_qmax_ok num_bits Hb) as (qm & q32 & H1 & H2 & Ha & Hb2 & _).
  rewrite (f32_quantize_ok cast x num_bits m qm q32 Hm H1 H2).
  set (scale := F32.fdiv m q32).
  assert (Hs1 : num_bits = 1%Z -> scale = NaN).
  { intros E. unfold scale. rewrite (Ha E).
    apply f32_fdiv_zero_zero. exact Hm0. }
  assert (Hs2 : num_bits <> 1%Z -> scale = Fin 0).
  { intros E. unfold scale. apply f32_fdiv_zero; [exact Hm0 | exact (Hb2 E)]. }
  assert (Hq : Forall (Forall (fun v => F32.fdiv v scale = NaN)) x).
  { eapply Forall_impl; [| exact Hz]. intros r Hr.
    eapply Forall_impl; [| exact Hr]. intros v Hv. simpl in Hv.
    destruct (Z.eq_dec num_bits 1) as [E | E].
    - rewrite (Hs1 E). reflexivity.
    - rewrite (Hs2 E). apply f32_fdiv_zero_zero. exact Hv. }
  exists qm, scale. split; [exact H1 |]. split; [| auto].
  f_equal. f_equal. apply map_matrix_ext.
  eapply Forall_impl; [| exact Hq]. intros r Hr.
  eapply Forall_impl; [| exact Hr]. intros v Hv. simpl in Hv.
  unfold F32.quantize_elem. now rewrite Hv.
Qed.

Lemma zero_matrix_propagates_witness :
  ((- 2 ^ 1023 <= 8 <= 1024)%Z ->
   exists qm scale,
     F32.qmax_of 8 = Ok qm /\
     F32.quantize_symmetric cast_trunc [[0; 0]; [0; 0]] 8 =
     Ok (map (map (fun _ =>
                     np_clip (inject_Z (astype_int8 cast_trunc NaN))
                       (- F32.pynum_val qm) (F32.pynum_val qm)))
           [[0; 0]; [0; 0]],
         scale) /\
     (8%Z = 1%Z -> scale = NaN) /\
     (8%Z <> 1%Z -> scale = Fin 0) /\
     Forall (Forall (fun v => F32.fdiv v scale = NaN)) [[0; 0]; [0; 0]]) /\
  ((1025 <= 8)%Z ->
   F32.quantize_symmetric cast_trunc [[0; 0]; [0; 0]] 8 =
   Raise OverflowError).
Proof.
  apply (zero_matrix_propagates cast_trunc [[0; 0]; [0; 0]] 8).
  - simpl. discriminate.
  - repeat constructor.
Defined.

(** C4, as stated, fails: the all-zero matrix is neither rejected nor given
    a fallback scale; the call returns the zero scale [0/127] and codes made
    from the NaN quotient [0/0]. *)
Lemma zero_matrix_returns_zero_scale :
  F32.quantize_symmetric cast_trunc [[0; 0]; [0; 0]] 8 =
  Ok ([[0; 0]; [0; 0]], Fin 0) /\
  F32.fdiv 0 (Fin 0) = NaN.
Proof. split; vm_compute; reflexivity. Qed.

(** ** Bit widths from 2 to 8 in the normal range *)

Lemma small_bits_qmax (num_bits : Z) :
  (2 <= num_bits <= 8)%Z ->
  exists n : Z,
    (1 <= n <= 127)%Z /\ n = (2 ^ (num_bits - 1) - 1)%Z /\
    F32.qmax_of num_bits = Ok (F32.PyInt n) /\
    F32.float32_of (F32.PyInt n) = Ok (Fin (inject_Z n)).
Proof.
  intros H.
  assert (C : num_bits = 2%Z \/ num_bits = 3%Z \/ num_bits = 4%Z \/
              num_bits = 5%Z \/ num_bits = 6%Z \/ num_bits = 7%Z \/
              num_bits = 8%Z) by lia.
  destruct C as [-> | [-> | [-> | [-> | [-> | [-> | ->]]]]]];
    [exists 1%Z | exists 3%Z | exists 7%Z | exists 15%Z | exists 31%Z
    | exists 63%Z | exists 127%Z];
    (split; [lia |]); (split; [reflexivity |]); split; vm_compute;
    reflexivity.
Qed.

(** What one element goes through: its quotient by the scale rounds to a
    code within [[-n, n]], which the int8 conversion and the clip leave
    as it is. *)
Lemma small_bits_elem (cast : fval -> Z) (v m s : Q) (n : Z) :
  (1 <= n <= 127)%Z -> 0 < m -> Qabs v <= m ->
  Qabs (s - m / inject_Z n) <= 2 ^ (-24) * (m / inject_Z n) ->
  exists r : Z,
    np_round (F32.fdiv v (Fin s)) = Fin (inject_Z r) /\
    (- n <= r <= n)%Z /\
    F32.quantize_elem cast (Fin s) v = r /\
    np_clip (inject_Z r) (- inject_Z n) (inject_Z n) = inject_Z r /\
    Qabs (inject_Z r - v / s) <= (1 # 2) + 2 ^ (-17).
Proof.
  intros Hn Hm Hv Hs.
  destruct (quotient_rounded v m s n Hn Hm Hv Hs) as (q & Hq & Hr & He).
  exists (round_half_even q).
  assert (Hround : np_round (F32.fdiv v (Fin s)) =
                   Fin (inject_Z (round_half_even q))).
  { rewrite Hq. reflexivity. }
  split; [exact Hround |]. split; [exact Hr |]. split; [| split].
  - unfold F32.quantize_elem. rewrite Hround.
    apply astype_int8_exact. lia.
  - apply np_clip_id. rewrite <- inject_Z_opp. apply inject_Z_range. lia.
  - exact He.
Qed.

Section SmallBits.

Variable cast : fval -> Z.
Variables (x : matrix) (m : Q) (n : Z).
Hypothesis Hmax : np_max (map Qabs (concat x)) = Ok m.
Hypothesis Hn : (1 <= n <= 127)%Z.
Hypothesis Hlo : 2 ^ (-119) <= m.
Hypothesis Hhi : m <= 2 ^ 127 * inject_Z n.

Lemma small_bits_elems :
  exists s,
    F32.fdiv m (Fin (inject_Z n)) = Fin s /\
    Qabs (s - m / inject_Z n) <= 2 ^ (-24) * (m / inject_Z n) /\
    2 ^ (-126) <= s /\
    Forall (Forall (fun v =>
      exists r : Z,
        np_round (F32.fdiv v (Fin s)) = Fin (inject_Z r) /\
        (- n <= r <= n)%Z /\
        F32.quantize_elem cast (Fin s) v = r /\
        np_clip (inject_Z r) (- inject_Z n) (inject_Z n) = inject_Z r /\
        Qabs (inject_Z r - v / s) <= (1 # 2) + 2 ^ (-17))) x.
Proof.
  destruct (scale_normal m n Hn Hlo Hhi) as (s & Hs & He & Hs1).
  exists s. split; [exact Hs |]. split; [exact He |]. split; [exact Hs1 |].
  destruct (max_val_spec x m Hmax) as [_ Hall].
  assert (Hm : 0 < m) by (pose proof (pow2_pos (-119)); lra).
  eapply Forall_impl; [| exact Hall]. intros row Hrow.
  eapply Forall_impl; [| exact Hrow]. intros v Hv. simpl in Hv.
  apply (small_bits_elem cast v m s n Hn Hm Hv He).
Qed.

(** The call clips nothing: the codes are the rounded quotients. *)
Lemma small_bits_quantized (num_bits : Z) (s : Q) :
  F32.qmax_of num_bits = Ok (F32.PyInt n) ->
  F32.float32_of (F32.PyInt n) = Ok (Fin (inject_Z n)) ->
  F32.fdiv m (Fin (inject_Z n)) = Fin s ->
  Forall (Forall (fun v =>
    np_clip (inject_Z (F32.quantize_elem cast (Fin s) v))
      (- inject_Z n) (inject_Z n) =
    inject_Z (F32.quantize_elem cast (Fin s) v))) x ->
  F32.quantize_symmetric cast x num_bits =
  Ok (map (map (fun v => inject_Z (F32.quantize_elem cast (Fin s) v))) x,
      Fin s).
Proof.
  intros Hq Hf Hs Hclip.
  rewrite (f32_quantize_ok cast x num_bits m _ _ Hmax Hq Hf), Hs.
  f_equal. f_equal. apply map_matrix_ext. exact Hclip.
Qed.

End SmallBits.

(** ** Eight bits: no clamping, bounded round-trip error *)




(** C2 (as amended): with [num_bits = 8] and a maximum absolute value
    between [2^-119] and [2^127], quantize_symmetric returns the float32
    quotient [max|x| / 127] as the scale, and every element whose code the
    clip left unchanged is restored by dequantize_symmetric within
    [scale / 2 + 2^-16 * scale]: half a step, and the float32 rounding of
    the quotient and of the product. *)
Theorem roundtrip_error_bound (cast : fval -> Z) (x : matrix) (m : Q) :
  np_max (map Qabs (concat x)) = Ok m ->
  2 ^ (-119) <= m -> m <= 2 ^ 127 ->
  exists codes s,
    F32.quantize_symmetric cast x 8 = Ok (codes, Fin s) /\
    F32.fdiv m (Fin 127) = Fin s /\
    Forall2 (Forall2 (fun v d =>
      np_clip (inject_Z (F32.quantize_elem cast (Fin s) v))
        (- (127)) 127 =
      inject_Z (F32.quantize_elem cast (Fin s) v) ->
      exists y, d = Fin y /\ Qabs (v - y) <= s / 2 + 2 ^ (-16) * s))
      x (F32.dequantize_symmetric codes (Fin s)).
Proof.
  intros Hm Hlo Hhi.
  assert (Hhi' : m <= 2 ^ 127 * inject_Z 127).
  { change (inject_Z 127) with 127. pow2_numerals. lra. }
  destruct (small_bits_elems cast x m 127 Hm ltac:(lia) Hlo Hhi')
    as (s & Hs & He & Hs1 & Hel).
  change (inject_Z 127) with 127 in *.
  assert (Hspos : 0 < s) by (pose proof (pow2_pos (-126)); lra).
  assert (Hsm : s * 127 <= m * (1 + 2 ^ (-24))).
  { apply Qabs_Qle_condition in He.
    assert (Em : m == m / 127 * 127) by field.
    set (w := m / 127) in *. pow2_numerals. lra. }
  exists (map (map (fun v => inject_Z (F32.quantize_elem cast (Fin s) v))) x).
  exists s. split; [| split; [exact Hs |]].
  - apply (small_bits_quantized cast x m 127 Hm 8 s);
      [reflexivity | reflexivity | exact Hs |].
    eapply Forall_impl; [| exact Hel]. intros row Hrow.
    eapply Forall_impl; [| exact Hrow].
    intros v (r & _ & _ & H3 & H4 & _). rewrite H3. exact H4.
  - unfold F32.dequantize_symmetric. rewrite map_map.
    erewrite map_ext by (intros row; apply map_map).
    apply Forall2_matrix_map.
    eapply Forall_impl; [| exact Hel]. intros row Hrow.
    eapply Forall_impl; [| exact Hrow].
    intros v (r & _ & H2 & H3 & _ & H5) _.
    rewrite H3.
    destruct (product_rounded r s H2 Hs1) as (y & Hy & Hey).
    { rewrite Qabs_Qmult, (Qabs_pos s) by lra.
      assert (HR : Qabs (inject_Z r) <= 127).
      { apply Qabs_Qle_condition.
        apply (inject_Z_range r (-127) 127) in H2. exact H2. }
      pose proof (Qabs_nonneg (inject_Z r)) as N0.
      set (R := Qabs (inject_Z r)) in *.
      pow2_numerals. nra. }
    exists y. split; [exact Hy |].
    apply (restored_error v s y r Hspos H5 Hey).
Qed.

Lemma roundtrip_error_bound_witness :
  exists codes s,
    F32.quantize_symmetric cast_trunc F32.create_sample_matrix 8 =
    Ok (codes, Fin s) /\
    F32.fdiv (5 # 2) (Fin 127) = Fin s /\
    Forall2 (Forall2 (fun v d =>
      np_clip (inject_Z (F32.quantize_elem cast_trunc (Fin s) v))
        (- (127)) 127 =
      inject_Z (F32.quantize_elem cast_trunc (Fin s) v) ->
      exists y, d = Fin y /\ Qabs (v - y) <= s / 2 + 2 ^ (-16) * s))
      F32.create_sample_matrix (F32.dequantize_symmetric codes (Fin s)).
Proof.
  apply (roundtrip_error_bound cast_trunc F32.create_sample_matrix (5 # 2)).
  - vm_compute. reflexivity.
  - vm_compute. discriminate.
  - vm_compute. discriminate.
Defined.

(** C2, as stated, fails in float32.  In [[15, 7.5]] the quotient of 7.5
    by the rounded scale lies just above 63.5 and rounds to the code 64,
    which is not clamped and is restored as 7.5590553: an error above
    [scale / 2].  With a maximum of [190 * 2^-149] the scale underflows to
    [2^-149] and the code of the maximum, 190 converted to int8, wraps to
    -66.  With the largest float32 as the maximum the product [127 * scale]
    overflows and the element is restored as an infinity. *)
Lemma roundtrip_error_above_half_scale :
  (exists s y,
      F32.quantize_symmetric cast_trunc [[15; 15 # 2]] 8 =
      Ok ([[127; 64]], Fin s) /\
      np_clip 64 (- (127)) 127 = 64 /\
      F32.dequantize_symmetric [[127; 64]] (Fin s) = [[Fin 15; Fin y]] /\
      s / 2 < Qabs ((15 # 2) - y)) /\
  (exists s y,
      F32.quantize_symmetric cast_trunc [[190 * 2 ^ (-149); 0]] 8 =
      Ok ([[- (66); 0]], Fin s) /\
      np_clip (- (66)) (- (127)) 127 = - (66) /\
      F32.dequantize_symmetric [[- (66); 0]] (Fin s) = [[Fin y; Fin 0]] /\
      s / 2 + 2 ^ (-16) * s < Qabs (190 * 2 ^ (-149) - y)) /\
  (exists s,
      F32.quantize_symmetric cast_trunc [[(2 - 2 ^ (-23)) * 2 ^ 127]] 8 =
      Ok ([[127]], Fin s) /\
      F32.dequantize_symmetric [[127]] (Fin s) = [[PInf]]).
Proof.
  split; [| split].
  - eexists. eexists. split; [vm_compute; reflexivity |].
    split; [vm_compute; reflexivity |].
    split; [vm_compute; reflexivity |].
    vm_compute. reflexivity.
  - eexists. eexists. split; [vm_compute; reflexivity |].
    split; [vm_compute; reflexivity |].
    split; [vm_compute; reflexivity |].
    vm_compute. reflexivity.
  - eexists. split; [vm_compute; reflexivity |].
    vm_compute. reflexivity.
Qed.

(** ** Bit widths from 2 to 8: every element is restored *)

(** X1: for every bit width from 2 to 8 and every matrix whose maximum
    absolute value lies between [2^-119] and [2^127], no element is
    clamped or wrapped: the scale is the float32 quotient [max|x| / qmax]
    and every element, without exception, is restored by
    dequantize_symmetric within [scale / 2 + 2^-16 * scale]. *)
Theorem roundtrip_all_elements (cast : fval -> Z) (x : matrix)
  (num_bits : Z) (m : Q) :
  (2 <= num_bits <= 8)%Z ->
  np_max (map Qabs (concat x)) = Ok m ->
  2 ^ (-119) <= m -> m <= 2 ^ 127 ->
  exists codes s,
    F32.quantize_symmetric cast x num_bits = Ok (codes, Fin s) /\
    F32.fdiv m (Fin (inject_Z (2 ^ (num_bits - 1) - 1))) = Fin s /\
    Forall2 (Forall2 (fun v d =>
               exists y, d = Fin y /\
                         Qabs (v - y) <= s / 2 + 2 ^ (-16) * s))
      x (F32.dequantize_symmetric codes (Fin s)).
Proof.
  intros Hb Hm Hlo Hhi.
  destruct (small_bits_qmax num_bits Hb) as (n & Hn & En & Hq & Hf).
  rewrite <- En.
  pose proof (inject_Z_range n 1 127 Hn) as HN.
  change (inject_Z 1) with 1 in HN. change (inject_Z 127) with 127 in HN.
  assert (Hhi' : m <= 2 ^ 127 * inject_Z n).
  { set (N := inject_Z n) in *. pow2_numerals. nra. }
  destruct (small_bits_elems cast x m n Hm Hn Hlo Hhi')
    as (s & Hs & He & Hs1 & Hel).
  assert (Hspos : 0 < s) by (pose proof (pow2_pos (-126)); lra).
  assert (Hsm : s * inject_Z n <= m * (1 + 2 ^ (-24))).
  { apply Qabs_Qle_condition in He.
    assert (Em : m == m / inject_Z n * inject_Z n) by (field; lra).
    set (w := m / inject_Z n) in *. set (N := inject_Z n) in *.
    assert (Hw : 0 <= w) by (pow2_numerals; lra).
    pow2_numerals. nra. }
  exists (map (map (fun v => inject_Z (F32.quantize_elem cast (Fin s) v))) x).
  exists s. split; [| split; [exact Hs |]].
  - apply (small_bits_quantized cast x m n Hm num_bits s Hq Hf Hs).
    eapply Forall_impl; [| exact Hel]. intros row Hrow.
    eapply Forall_impl; [| exact Hrow].
    intros v (r & _ & _ & H3 & H4 & _). rewrite H3. exact H4.
  - unfold F32.dequantize_symmetric. rewrite map_map.
    erewrite map_ext by (intros row; apply map_map).
    apply Forall2_matrix_map.
    eapply Forall_impl; [| exact Hel]. intros row Hrow.
    eapply Forall_impl; [| exact Hrow].
    intros v (r & _ & H2 & H3 & _ & H5).
    rewrite H3.
    destruct (product_rounded r s ltac:(lia) Hs1) as (y & Hy & Hey).
    { rewrite Qabs_Qmult, (Qabs_pos s) by lra.
      assert (HR : Qabs (inject_Z r) <= inject_Z n).
      { apply Qabs_Qle_condition. rewrite <- inject_Z_opp.
        apply inject_Z_range. exact H2. }
      pose proof (Qabs_nonneg (inject_Z r)) as N0.
      set (R := Qabs (inject_Z r)) in *. set (N := inject_Z n) in *.
      pow2_numerals. nra. }
    exists y. split; [exact Hy |].
    apply (restored_error v s y r Hspos H5 Hey).
Qed.

Lemma roundtrip_all_elements_witness :
  exists codes s,
    F32.quantize_symmetric cast_trunc F32.create_sample_matrix 4 =
    Ok (codes, Fin s) /\
    F32.fdiv (5 # 2) (Fin (inject_Z (2 ^ (4 - 1) - 1))) = Fin s /\
    Forall2 (Forall2 (fun v d =>
               exists y, d = Fin y /\
                         Qabs (v - y) <= s / 2 + 2 ^ (-16) * s))
      F32.create_sample_matrix (F32.dequantize_symmetric codes (Fin s)).
Proof.
  apply (roundtrip_all_elements cast_trunc F32.create_sample_matrix 4
           (5 # 2)).
  - lia.
  - vm_compute. reflexivity.
  - vm_compute. discriminate.
  - vm_compute. discriminate.
Defined.

(** ** Zero elements *)

Lemma f32_quantize_elem_zero (cast : fval -> Z) (scale : fval) (v : Q) :
  v == 0 ->
  match scale with
  | Fin s => ~ s == 0
  | NaN => False
  | _ => True
  end ->
  F32.quantize_elem cast scale v = 0%Z.
Proof.
  intros Hv Hs. unfold F32.quantize_elem.
  rewrite (f32_fdiv_zero v scale Hv Hs). reflexivity.
Qed.

(** X3: for [num_bits] from 1 to 1024, a zero element gets the code 0
    whenever the scale returned is neither zero nor NaN, whatever the int8
    conversion does out of range. *)
Theorem zero_element_zero_code (cast : fval -> Z) (x : matrix)
  (num_bits : Z) :
  (1 <= num_bits <= 1024)%Z -> concat x <> [] ->
  exists codes scale,
    F32.quantize_symmetric cast x num_bits = Ok (codes, scale) /\
    (match scale with
     | Fin s => ~ s == 0
     | NaN => False
     | _ => True
     end ->
     Forall2 (Forall2 (fun v c => v == 0 -> c = 0)) x codes).
Proof.
  intros Hb Hne.
  destruct (np_max_nonempty _ (map_concat_nonempty x Hne)) as [m Hm].
  destruct (f32_qmax_ok num_bits ltac:(lia))
    as (qm & q32 & H1 & H2 & _ & _ & Hi & _).
  rewrite (Hi ltac:(lia)) in *.
  rewrite (f32_quantize_ok cast x num_bits m _ q32 Hm H1 H2).
  eexists. eexists. split; [reflexivity |].
  intros Hs. apply Forall2_matrix_map_Q. intros v Hv.
  rewrite (f32_quantize_elem_zero cast _ v Hv Hs).
  cbn [F32.pynum_val].
  pose proof (pow2_Z_pos (num_bits - 1) ltac:(lia)) as P.
  assert (P' : (0 <= 2 ^ (num_bits - 1) - 1)%Z) by lia.
  rewrite Zle_Qle in P'. change (inject_Z 0) with 0 in *.
  apply np_clip_id.
  set (Q := inject_Z (2 ^ (num_bits - 1) - 1)) in *. split; lra.
Qed.

Lemma zero_element_zero_code_witness :
  exists codes scale,
    F32.quantize_symmetric cast_trunc F32.create_sample_matrix 12 =
    Ok (codes, scale) /\
    (match scale with
     | Fin s => ~ s == 0
     | NaN => False
     | _ => True
     end ->
     Forall2 (Forall2 (fun v c => v == 0 -> c = 0))
       F32.create_sample_matrix codes).
Proof.
  apply (zero_element_zero_code cast_trunc F32.create_sample_matrix 12).
  - lia.
  - discriminate.
Defined.

(** ** Bit widths below one *)

(** X6: for [num_bits] from 0 down to [-2^1023] Python's
    [2**(num_bits-1) - 1] is a negative float, the clip bounds cross, and
    every code of a matrix that has an element is the constant [qmax],
    whatever the data. *)
Theorem nonpositive_bits_constant_codes (cast : fval -> Z) (x : matrix)
  (num_bits : Z) :
  (- 2 ^ 1023 <= num_bits <= 0)%Z -> concat x <> [] ->
  exists d scale,
    F32.qmax_of num_bits = Ok (F32.PyFloat d) /\ d < 0 /\
    F32.quantize_symmetric cast x num_bits =
    Ok (map (map (fun _ => d)) x, scale).
Proof.
  intros Hb Hne.
  destruct (np_max_nonempty _ (map_concat_nonempty x Hne)) as [m Hm].
  destruct (f32_qmax_ok num_bits ltac:(lia))
    as (qm & q32 & H1 & H2 & _ & _ & _ & Hf).
  destruct (Hf ltac:(lia)) as (d & -> & Hd).
  exists d. eexists. split; [exact H1 |]. split; [lra |].
  rewrite (f32_quantize_ok cast x num_bits m _ q32 Hm H1 H2).
  f_equal. f_equal. apply map_matrix_ext.
  apply Forall_matrix_all. intros v. cbn [F32.pynum_val].
  apply np_clip_crossed. lra.
Qed.

Lemma nonpositive_bits_constant_codes_witness :
  exists d scale,
    F32.qmax_of (-3) = Ok (F32.PyFloat d) /\ d < 0 /\
    F32.quantize_symmetric cast_trunc F32.create_sample_matrix (-3) =
    Ok (map (map (fun _ => d)) F32.create_sample_matrix, scale).
Proof.
  apply (nonpositive_bits_constant_codes cast_trunc F32.create_sample_matrix
           (-3)).
  - lia.
  - discriminate.
Defined.

(** ** Rounding is odd *)

Lemma Qlog2_comp (a b : Q) : 0 < a -> a == b -> F32.Qlog2 a = F32.Qlog2 b.
Proof.
  intros Ha E. destruct (Qlog2_spec a Ha) as [H1 H2].
  symmetry. apply Qlog2_unique; rewrite <- E; assumption.
Qed.

Lemma binary_exponent_comp (prec emin : Z) (q q' : Q) :
  ~ q == 0 -> Qabs q == Qabs q' ->
  F32.binary_exponent prec emin q = F32.binary_exponent prec emin q'.
Proof.
  intros Hq E. unfold F32.binary_exponent.
  rewrite (Qlog2_comp (Qabs q) (Qabs q')); [reflexivity | | exact E].
  apply Qabs_pos_of_nonzero. exact Hq.
Qed.

Lemma binary_nearest_opp (prec emin : Z) (q q' : Q) :
  ~ q == 0 -> q' == - q ->
  F32.binary_nearest prec emin q' == - F32.binary_nearest prec emin q.
Proof.
  intros Hq E. unfold F32.binary_nearest.
  rewrite (binary_exponent_comp prec emin q' q).
  - set (e := F32.binary_exponent prec emin q).
    assert (Eq : q' / 2 ^ e == - (q / 2 ^ e)).
    { rewrite E. field. apply pow2_nonzero. }
    rewrite (round_half_even_comp _ _ Eq), round_half_even_opp.
    rewrite inject_Z_opp. ring.
  - intros C. apply Hq. rewrite C in E. lra.
  - rewrite E. apply Qabs_opp.
Qed.

Lemma round_binary_opp (prec emin emax : Z) (q q' r : Q) :
  q' == - q ->
  F32.round_binary prec emin emax q = Fin r ->
  F32.round_binary prec emin emax q' = Fin (- r).
Proof.
  intros E. unfold F32.round_binary.
  destruct (Qeq_bool q 0) eqn:Z0.
  - intros H. apply Fin_inj in H. subst r.
    apply Qeq_bool_iff in Z0.
    replace (Qeq_bool q' 0) with true; [reflexivity |].
    symmetry. apply Qeq_bool_iff. rewrite E, Z0. reflexivity.
  - assert (NZ : ~ q == 0).
    { intros C. apply Qeq_bool_iff in C. congruence. }
    assert (NZ' : ~ q' == 0).
    { intros C. apply NZ. rewrite C in E. lra. }
    rewrite (Qeq_bool_false q' NZ').
    pose proof (binary_nearest_opp prec emin q q' NZ E) as N.
    assert (A : Qabs (F32.binary_nearest prec emin q') ==
                Qabs (F32.binary_nearest prec emin q)).
    { rewrite N. apply Qabs_opp. }
    rewrite (Qleb_comp _ _ (reflexivity (2 ^ emax)) _ _ A).
    destruct (Qle_bool (2 ^ emax) (Qabs (F32.binary_nearest prec emin q))).
    + destruct (Qle_bool 0 q); discriminate.
    + intros H. apply Fin_inj in H. subst r.
      rewrite (Qred_complete _ _ N), Qred_opp. reflexivity.
Qed.

Lemma f32_fdiv_opp (v s q : Q) :
  F32.fdiv v (Fin s) = Fin q -> ~ s == 0 -> F32.fdiv (- v) (Fin s) = Fin (- q).
Proof.
  intros H Hs. unfold F32.fdiv in *.
  rewrite (Qeq_bool_false s Hs) in *.
  apply (round_binary_opp 24 (-149) 128 (v / s)); [| exact H].
  field. exact Hs.
Qed.

(** X4: for bit widths 2 to 8 and a maximum absolute value between
    [2^-119] and [2^127], quantizing the negated matrix gives the same
    scale and the negated codes: float32 rounding and round-half-to-even
    are odd, and no code leaves the symmetric range. *)
Theorem negation_symmetry (cast : fval -> Z) (x : matrix) (num_bits : Z)
  (m : Q) :
  (2 <= num_bits <= 8)%Z ->
  np_max (map Qabs (concat x)) = Ok m ->
  2 ^ (-119) <= m -> m <= 2 ^ 127 ->
  exists codes scale,
    F32.quantize_symmetric cast x num_bits = Ok (codes, scale) /\
    F32.quantize_symmetric cast (map (map Qopp) x) num_bits =
    Ok (map (map Qopp) codes, scale).
Proof.
  intros Hb Hm Hlo Hhi.
  destruct (small_bits_qmax num_bits Hb) as (n & Hn & En & Hq & Hf).
  pose proof (inject_Z_range n 1 127 Hn) as HN.
  change (inject_Z 1) with 1 in HN. change (inject_Z 127) with 127 in HN.
  assert (Hhi' : m <= 2 ^ 127 * inject_Z n).
  { set (N := inject_Z n) in *. pow2_numerals. nra. }
  destruct (small_bits_elems cast x m n Hm Hn Hlo Hhi')
    as (s & Hs & He & Hs1 & Hel).
  assert (Hspos : 0 < s) by (pose proof (pow2_pos (-126)); lra).
  assert (Hm' : np_max (map Qabs (concat (map (map Qopp) x))) = Ok m).
  { rewrite max_val_opp. exact Hm. }
  assert (Hopp : Forall (Forall (fun v =>
            F32.quantize_elem cast (Fin s) (- v) =
            (- F32.quantize_elem cast (Fin s) v)%Z /\
            (- n <= F32.quantize_elem cast (Fin s) v <= n)%Z)) x).
  { eapply Forall_impl; [| exact Hel]. intros row Hrow.
    eapply Forall_impl; [| exact Hrow].
    intros v (r & H1 & H2 & H3 & _ & _).
    split; [| rewrite H3; exact H2].
    rewrite H3. unfold F32.quantize_elem.
    destruct (F32.fdiv v (Fin s)) as [q | | |] eqn:Eq; try discriminate.
    rewrite (f32_fdiv_opp v s q Eq) by lra.
    cbn [np_round] in *. apply Fin_inj in H1.
    rewrite round_half_even_opp.
    assert (Er : round_half_even q = r).
    { unfold inject_Z in H1. now inversion H1. }
    rewrite Er. apply astype_int8_exact. lia. }
  exists (map (map (fun v => inject_Z (F32.quantize_elem cast (Fin s) v))) x).
  exists (Fin s). split.
  - apply (small_bits_quantized cast x m n Hm num_bits s Hq Hf Hs).
    eapply Forall_impl; [| exact Hel]. intros row Hrow.
    eapply Forall_impl; [| exact Hrow].
    intros v (r & _ & _ & H3 & H4 & _). rewrite H3. exact H4.
  - rewrite (small_bits_quantized cast _ m n Hm' num_bits s Hq Hf Hs).
    + f_equal. f_equal. rewrite !map_map.
      apply map_ext_Forall. eapply Forall_impl; [| exact Hopp].
      intros row Hrow. rewrite !map_map.
      apply map_ext_Forall. eapply Forall_impl; [| exact Hrow].
      intros v [H _]. rewrite H. reflexivity.
    + apply Forall_map. eapply Forall_impl; [| exact Hopp].
      intros row Hrow. apply Forall_map.
      eapply Forall_impl; [| exact Hrow].
      intros v [H B]. rewrite H.
      apply np_clip_id. rewrite <- inject_Z_opp. apply inject_Z_range. lia.
Qed.

Lemma negation_symmetry_witness :
  exists codes scale,
    F32.quantize_symmetric cast_trunc F32.create_sample_matrix 8 =
    Ok (codes, scale) /\
    F32.quantize_symmetric cast_trunc
      (map (map Qopp) F32.create_sample_matrix) 8 =
    Ok (map (map Qopp) codes, scale).
Proof.
  apply (negation_symmetry cast_trunc F32.create_sample_matrix 8 (5 # 2)).
  - lia.
  - vm_compute. reflexivity.
  - vm_compute. discriminate.
  - vm_compute. discriminate.
Defined.

(** ** The extreme elements *)

(** The code of an element equal to the maximum or to its opposite. *)
Lemma code_at_max (v m s : Q) (n r : Z) :
  (1 <= n <= 127)%Z -> 0 < m ->
  Qabs (s - m / inject_Z n) <= 2 ^ (-24) * (m / inject_Z n) ->
  Qabs (inject_Z r - v / s) <= (1 # 2) + 2 ^ (-17) ->
  (v == m -> r = n) /\ (v == - m -> r = (- n)%Z).
Proof.
  intros Hn Hm Hs Hr.
  pose proof (inject_Z_range n 1 127 Hn) as HN.
  change (inject_Z 1) with 1 in HN. change (inject_Z 127) with 127 in HN.
  set (N := inject_Z n) in *.
  assert (Em : m == m / N * N) by (field; lra).
  set (w := m / N) in *.
  assert (Hw : 0 < w).
  { unfold w. apply Qlt_shift_div_l; lra. }
  apply Qabs_Qle_condition in Hs. pow2_numerals.
  assert (Hspos : 0 < s) by lra.
  assert (Hq : N * (1 - (2 # 16777216)) <= m / s <=
               N * (1 + (2 # 16777216))).
  { split.
    - apply Qle_shift_div_l; [exact Hspos |]. rewrite Em. nra.
    - apply Qle_shift_div_r; [exact Hspos |]. rewrite Em. nra. }
  apply Qabs_Qle_condition in Hr.
  split; intros Hv.
  - assert (Ev : v / s == m / s) by (rewrite Hv; reflexivity).
    rewrite Ev in Hr. set (t := m / s) in *.
    assert (H1 : inject_Z (n - 1) < inject_Z r).
    { rewrite inject_Z_sub. change (inject_Z 1) with 1. fold N. lra. }
    assert (H2 : inject_Z r < inject_Z (n + 1)).
    { rewrite inject_Z_plus. change (inject_Z 1) with 1. fold N. lra. }
    rewrite <- Zlt_Qlt in H1, H2. lia.
  - assert (Ev : v / s == - (m / s)) by (rewrite Hv; field; lra).
    rewrite Ev in Hr. set (t := m / s) in *.
    assert (H1 : inject_Z (- n - 1) < inject_Z r).
    { rewrite inject_Z_sub, inject_Z_opp. change (inject_Z 1) with 1.
      fold N. lra. }
    assert (H2 : inject_Z r < inject_Z (- n + 1)).
    { rewrite inject_Z_plus, inject_Z_opp. change (inject_Z 1) with 1.
      fold N. lra. }
    rewrite <- Zlt_Qlt in H1, H2. lia.
Qed.

(** X2: for bit widths 2 to 8 and a maximum absolute value between
    [2^-119] and [2^127], an element equal to the maximum gets the code
    [qmax], one equal to its opposite gets [-qmax], and some code of the
    matrix has magnitude [qmax]: the scale maps the maximum to the largest
    code. *)
Theorem extreme_elements_get_qmax (cast : fval -> Z) (x : matrix)
  (num_bits : Z) (m : Q) :
  (2 <= num_bits <= 8)%Z ->
  np_max (map Qabs (concat x)) = Ok m ->
  2 ^ (-119) <= m -> m <= 2 ^ 127 ->
  exists codes scale,
    F32.quantize_symmetric cast x num_bits = Ok (codes, scale) /\
    Forall2 (Forall2 (fun v c =>
               (v == m -> c = inject_Z (2 ^ (num_bits - 1) - 1)) /\
               (v == - m -> c = - inject_Z (2 ^ (num_bits - 1) - 1))))
      x codes /\
    Exists (Exists (fun c => Qabs c == inject_Z (2 ^ (num_bits - 1) - 1)))
      codes.
Proof.
  intros Hb Hm Hlo Hhi.
  destruct (small_bits_qmax num_bits Hb) as (n & Hn & En & Hq & Hf).
  rewrite <- En.
  pose proof (inject_Z_range n 1 127 Hn) as HN.
  change (inject_Z 1) with 1 in HN. change (inject_Z 127) with 127 in HN.
  assert (Hhi' : m <= 2 ^ 127 * inject_Z n).
  { set (N := inject_Z n) in *. pow2_numerals. nra. }
  destruct (small_bits_elems cast x m n Hm Hn Hlo Hhi')
    as (s & Hs & He & Hs1 & Hel).
  assert (Hmpos : 0 < m) by (pose proof (pow2_pos (-119)); lra).
  assert (Hcode : Forall (Forall (fun v =>
            (v == m -> F32.quantize_elem cast (Fin s) v = n) /\
            (v == - m -> F32.quantize_elem cast (Fin s) v = (- n)%Z))) x).
  { eapply Forall_impl; [| exact Hel]. intros row Hrow.
    eapply Forall_impl; [| exact Hrow].
    intros v (r & _ & _ & H3 & _ & H5). rewrite H3.
    apply (code_at_max v m s n r Hn Hmpos He H5). }
  exists (map (map (fun v => inject_Z (F32.quantize_elem cast (Fin s) v))) x).
  exists (Fin s). split; [| split].
  - apply (small_bits_quantized cast x m n Hm num_bits s Hq Hf Hs).
    eapply Forall_impl; [| exact Hel]. intros row Hrow.
    eapply Forall_impl; [| exact Hrow].
    intros v (r & _ & _ & H3 & H4 & _). rewrite H3. exact H4.
  - apply Forall2_matrix_map.
    eapply Forall_impl; [| exact Hcode]. intros row Hrow.
    eapply Forall_impl; [| exact Hrow].
    intros v [Hup Hdown]. split; intros Hv.
    + now rewrite (Hup Hv).
    + now rewrite (Hdown Hv).
  - pose proof Hm as Hm2. apply np_max_spec in Hm2 as [Hin _].
    apply in_map_iff in Hin as (v & Hv & Hin).
    apply (Exists_matrix_map _ _ x v Hin).
    assert (Hc : v == m \/ v == - m).
    { rewrite <- Hv. apply Qabs_case; intros; [left | right]; lra. }
    rewrite Forall_forall in Hcode.
    apply in_concat in Hin as (row & Hrow & Hvin).
    specialize (Hcode row Hrow). rewrite Forall_forall in Hcode.
    destruct (Hcode v Hvin) as [Hup Hdown].
    destruct Hc as [Hc | Hc].
    + rewrite (Hup Hc). apply Qabs_pos. lra.
    + rewrite (Hdown Hc), inject_Z_opp, Qabs_opp. apply Qabs_pos. lra.
Qed.

Lemma extreme_elements_get_qmax_witness :
  exists codes scale,
    F32.quantize_symmetric cast_trunc F32.create_sample_matrix 8 =
    Ok (codes, scale) /\
    Forall2 (Forall2 (fun v c =>
               (v == 5 # 2 -> c = inject_Z (2 ^ (8 - 1) - 1)) /\
               (v == - (5 # 2) -> c = - inject_Z (2 ^ (8 - 1) - 1))))
      F32.create_sample_matrix codes /\
    Exists (Exists (fun c => Qabs c == inject_Z (2 ^ (8 - 1) - 1))) codes.
Proof.
  apply (extreme_elements_get_qmax cast_trunc F32.create_sample_matrix 8
           (5 # 2)).
  - lia.
  - vm_compute. reflexivity.
  - vm_compute. discriminate.
  - vm_compute. discriminate.
Defined.

(** ** Subspaces cover a prefix of every row *)

Lemma concat_slices {A : Type} (row : list A) (M sub_dim : nat) :
  concat (map (fun i => slice (i * sub_dim) ((i + 1) * sub_dim) row)
            (seq 0 M)) =
  firstn (M * sub_dim) row.
Proof.
  induction M as [| M IH]; [reflexivity |].
  rewrite seq_S, map_app, concat_app, IH. simpl.
  rewrite app_nil_r.
  replace (sub_dim + M * sub_dim)%nat with (M * sub_dim + sub_dim)%nat
    by lia.
  rewrite firstn_plus. f_equal. unfold slice. f_equal. lia.
Qed.

Lemma hstack_subspaces (x : matrix) (M sub_dim : nat) :
  M <> O ->
  hstack (length x) (subspaces x M sub_dim) =
  Ok (map (firstn (M * sub_dim)) x).
Proof.
  intros HM. unfold subspaces.
  rewrite hstack_ok by (now apply map_seq_nonempty).
  f_equal. rewrite <- (map_nth_seq (firstn (M * sub_dim)) x []).
  apply map_ext_in. intros r Hr. seq_bound Hr.
  rewrite map_map, <- concat_slices. f_equal.
  apply map_ext. intros i.
  exact (nth_map_in_range _ x r [] [] Hr).
Qed.

(** X8: the PQ cell splits a matrix of [d] columns into [M] subspaces of
    [d // M] columns: stacking the subspaces side by side gives back the
    first [d - d mod M] columns of every row, so the last [d mod M] columns
    belong to no subspace, and the whole matrix comes back exactly when [M]
    divides [d]. *)
Theorem subspaces_cover_prefix (x : matrix) (M : nat) :
  rectangular x -> M <> O ->
  let d := snd (shape x) in
  hstack (length x) (subspaces x M (d / M)) =
  Ok (map (firstn (d - d mod M)) x) /\
  (d mod M = O -> hstack (length x) (subspaces x M (d / M)) = Ok x).
Proof.
  intros Hrect HM d.
  assert (E : (M * (d / M) = d - d mod M)%nat).
  { pose proof (Nat.div_mod_eq d M). lia. }
  rewrite (hstack_subspaces x M (d / M) HM), E.
  split; [reflexivity |].
  intros H0. rewrite H0, Nat.sub_0_r. f_equal.
  unfold rectangular in Hrect. fold d in Hrect.
  rewrite <- (map_id x) at 2. apply map_ext_Forall.
  eapply Forall_impl; [| exact Hrect].
  intros row Hrow. simpl in Hrow. rewrite <- Hrow. apply firstn_all.
Qed.

Lemma subspaces_cover_prefix_witness :
  let d := snd (shape create_sample_matrix) in
  hstack (length create_sample_matrix)
    (subspaces create_sample_matrix 3 (d / 3)) =
  Ok (map (firstn (d - d mod 3)) create_sample_matrix) /\
  (d mod 3 = O ->
   hstack (length create_sample_matrix)
     (subspaces create_sample_matrix 3 (d / 3)) = Ok create_sample_matrix).
Proof.
  apply (subspaces_cover_prefix create_sample_matrix 3).
  - repeat constructor.
  - discriminate.
Defined.

(** ** A query longer than the subspaces *)

Lemma query_sub_at_app (query tail : sample) (M sub_dim i : nat) :
  (i < M)%nat -> length query = (M * sub_dim)%nat ->
  query_sub_at (query ++ tail) sub_dim i = query_sub_at query sub_dim i.
Proof.
  intros Hi Hl. rewrite !query_sub_at_block.
  rewrite skipn_app, firstn_app, length_skipn.
  replace (sub_dim - (length query - i * sub_dim))%nat with O by nia.
  rewrite firstn_O. apply app_nil_r.
Qed.

(** X9: the lookup cell does not check the length of the query: entries
    past the first [M * sub_dim] are in no sub-vector and change neither the
    tables nor any error. *)
Theorem lookup_tables_ignore_tail (query tail : sample)
  (codebooks : list (list sample)) (M sub_dim : nat) :
  length query = (M * sub_dim)%nat ->
  query_subs (query ++ tail) M sub_dim = query_subs query M sub_dim /\
  lookup_tables (query ++ tail) codebooks M sub_dim =
  lookup_tables query codebooks M sub_dim.
Proof.
  intros Hl.
  assert (E : query_subs (query ++ tail) M sub_dim
              = query_subs query M sub_dim).
  { unfold query_subs. apply map_ext_in. intros i Hi. seq_bound Hi.
    now apply (query_sub_at_app query tail M). }
  split; [exact E |]. unfold lookup_tables. now rewrite E.
Qed.

Lemma lookup_tables_ignore_tail_witness :
  query_subs (sample_query ++ [7; 7; 7]) 2 2 = query_subs sample_query 2 2 /\
  lookup_tables (sample_query ++ [7; 7; 7]) sample_codebooks 2 2 =
  lookup_tables sample_query sample_codebooks 2 2.
Proof.
  apply (lookup_tables_ignore_tail sample_query [7; 7; 7] sample_codebooks
           2 2).
  reflexivity.
Defined.

(** ** When the cells raise *)

Lemma mapM_Ok_all {A B : Type} (f : A -> result B) (l : list A)
  (bs : list B) :
  mapM f l = Ok bs ->
  length bs = length l /\ forall a, In a l -> exists b, f a = Ok b.
Proof.
  revert bs. induction l as [| a t IH]; intros bs H; simpl in H.
  - injection H as <-. split; [reflexivity | intros a []].
  - destruct (f a) as [b | e] eqn:Ea; simpl in H; [| discriminate].
    destruct (mapM f t) as [bt | e] eqn:Et; simpl in H; [| discriminate].
    injection H as <-. destruct (IH bt eq_refl) as [Hl Hall].
    split; [simpl; now rewrite Hl |].
    intros a' [<- | Hin]; [eauto | now apply Hall].
Qed.

Lemma mapM_Raise_some {A B : Type} (f : A -> result B) (l : list A)
  (e : exn) :
  mapM f l = Raise e -> exists a, In a l /\ f a = Raise e.
Proof.
  induction l as [| a t IH]; intros H; simpl in H; [discriminate |].
  destruct (f a) as [b | e'] eqn:Ea; simpl in H.
  - destruct (mapM f t) as [bt | e'] eqn:Et; simpl in H; [discriminate |].
    injection H as <-. destruct (IH eq_refl) as (a' & Hin & Ha').
    exists a'. split; [now right | exact Ha'].
  - injection H as <-. exists a. split; [now left | exact Ea].
Qed.

Lemma index_Ok_lt {A : Type} (l : list A) (i : nat) (a : A) (d : A) :
  index l i = Ok a -> (i < length l)%nat /\ a = nth i l d.
Proof.
  unfold index. destruct (nth_error l i) as [a' |] eqn:E; [| discriminate].
  intros [= <-]. split.
  - apply nth_error_Some. congruence.
  - symmetry. now apply nth_error_nth.
Qed.

Lemma index_Raise {A : Type} (l : list A) (i : nat) (e : exn) :
  index l i = Raise e -> e = IndexError /\ (length l <= i)%nat.
Proof.
  unfold index. destruct (nth_error l i) as [a' |] eqn:E; [discriminate |].
  intros [= <-]. split; [reflexivity |]. now apply nth_error_None.
Qed.

Lemma mapM_index_Raise {A B : Type} (g : B -> list A) (h : B -> nat)
  (l : list B) (e : exn) :
  mapM (fun b => index (g b) (h b)) l = Raise e -> e = IndexError.
Proof.
  intros H. apply mapM_Raise_some in H as (b & _ & Hb).
  now apply index_Raise in Hb.
Qed.

Lemma Forall2_of_nth {A B : Type} (R : A -> B -> Prop) (l1 : list A)
  (l2 : list B) (d1 : A) (d2 : B) :
  length l1 = length l2 ->
  (forall i, (i < length l1)%nat -> R (nth i l1 d1) (nth i l2 d2)) ->
  Forall2 R l1 l2.
Proof.
  revert l2. induction l1 as [| a l1 IH]; intros [| b l2] Hl H;
    simpl in Hl; try discriminate; constructor.
  - apply (H O). simpl. lia.
  - apply IH; [congruence |]. intros i Hi. apply (H (S i)). simpl. lia.
Qed.

Lemma mapM_Ok_Forall2 {A B : Type} (f : A -> result B) (l : list A)
  (bs : list B) :
  mapM f l = Ok bs -> Forall2 (fun a b => f a = Ok b) l bs.
Proof.
  revert bs. induction l as [| a t IH]; intros bs H; simpl in H.
  - injection H as <-. constructor.
  - destruct (f a) as [b | e] eqn:Ea; simpl in H; [| discriminate].
    destruct (mapM f t) as [bt | e] eqn:Et; simpl in H; [| discriminate].
    injection H as <-. constructor; [exact Ea | now apply IH].
Qed.

Lemma Forall2_In_left {A B : Type} (R : A -> B -> Prop) (l : list A)
  (bs : list B) (a : A) :
  Forall2 R l bs -> In a l -> exists b, In b bs /\ R a b.
Proof.
  induction 1 as [| a' b' l bs Hab _ IH]; intros Hin; [destruct Hin |].
  destruct Hin as [<- | Hin].
  - exists b'. split; [now left | exact Hab].
  - destruct (IH Hin) as (b & Hb & Hr). exists b. split; [now right | auto].
Qed.

Section Outcomes.

Variables (query : sample) (codebooks : list (list sample)).
Variables (M sub_dim : nat) (codes : list (list nat)).

Hypothesis codebooks_count : length codebooks = M.
Hypothesis some_subspace : M <> O.
Hypothesis rows_width : Forall (fun row => length row = M) codes.

(** One block of the reconstruction: column [i] of the codes gathered from
    codebook [i]. *)
Lemma pq_block_Ok (i : nat) (block : list sample) :
  (cb <- index codebooks i ;;
   col <- mapM (fun row => index row i) codes ;;
   mapM (index cb) col) = Ok block ->
  Forall (fun row => (nth i row O < length (nth i codebooks []))%nat) codes.
Proof.
  intros H.
  destruct (index codebooks i) as [cb |] eqn:Ecb; [| discriminate].
  apply (index_Ok_lt _ _ _ []) in Ecb as [_ ->]. cbn [bind] in H.
  destruct (mapM (fun row => index row i) codes) as [col |] eqn:Ecol;
    [| discriminate].
  cbn [bind] in H. apply mapM_Ok_all in H as [_ Hall].
  apply mapM_Ok_Forall2 in Ecol.
  apply Forall_forall. intros row Hrow.
  destruct (Forall2_In_left _ _ _ row Ecol Hrow) as (c & Hc & Hrc).
  apply (index_Ok_lt _ _ _ O) in Hrc as [_ ->].
  destruct (Hall _ Hc) as [s Hs].
  now apply (index_Ok_lt _ _ _ []) in Hs as [Hlt _].
Qed.

Lemma pq_block_Raise (i : nat) (e : exn) :
  (cb <- index codebooks i ;;
   col <- mapM (fun row => index row i) codes ;;
   mapM (index cb) col) = Raise e ->
  e = IndexError.
Proof.
  intros H.
  destruct (index codebooks i) as [cb | e1] eqn:Ecb; cbn [bind] in H.
  - destruct (mapM (fun row => index row i) codes) as [col | e2] eqn:Ecol;
      cbn [bind] in H.
    + now apply (mapM_index_Raise (fun _ => cb) (fun c => c)) in H.
    + injection H as <-.
      now apply (mapM_index_Raise (fun row => row) (fun _ => i)) in Ecol.
  - injection H as <-. now apply index_Raise in Ecb.
Qed.

Lemma in_range_of_bounds :
  (forall i, (i < M)%nat ->
     Forall (fun row => (nth i row O < length (nth i codebooks []))%nat)
       codes) ->
  Forall (codes_in_range codebooks) codes.
Proof.
  intros H. apply Forall_forall. intros row Hrow.
  rewrite Forall_forall in rows_width. pose proof (rows_width row Hrow) as Hw.
  apply (Forall2_of_nth _ row codebooks O []); [congruence |].
  intros i Hi. specialize (H i ltac:(lia)).
  rewrite Forall_forall in H. now apply H.
Qed.

Lemma reconstructed_pq_Ok_in_range (rows : matrix) :
  reconstructed_pq codebooks codes M = Ok rows ->
  Forall (codes_in_range codebooks) codes.
Proof.
  unfold reconstructed_pq. intros H.
  destruct (mapM _ (seq 0 M)) as [blocks |] eqn:Eb; [| discriminate].
  apply mapM_Ok_all in Eb as [_ Hall].
  apply in_range_of_bounds. intros i Hi.
  destruct (Hall i) as [block Hblock]; [apply in_seq; lia |].
  now apply (pq_block_Ok i block).
Qed.

Lemma reconstructed_pq_Raise (e : exn) :
  reconstructed_pq codebooks codes M = Raise e -> e = IndexError.
Proof.
  unfold reconstructed_pq. intros H.
  destruct (mapM _ (seq 0 M)) as [blocks | e'] eqn:Eb; cbn [bind] in H.
  - apply mapM_Ok_all in Eb as [Hlen _]. rewrite length_seq in Hlen.
    destruct blocks; [simpl in Hlen; congruence | discriminate].
  - injection H as <-. apply mapM_Raise_some in Eb as (i & _ & Hi).
    now apply pq_block_Raise in Hi.
Qed.

Lemma table_rows_nth (i : nat) :
  (i < M)%nat ->
  nth i (table_rows query codebooks M sub_dim) [] =
  map (dotq (query_sub_at query sub_dim i)) (nth i codebooks []).
Proof. intros Hi. unfold table_rows. now rewrite nth_map_seq. Qed.

Lemma approx_dot_Ok_in_range (row : list nat) (v : Q) :
  length row = M ->
  approx_dot (table_rows query codebooks M sub_dim) row M = Ok v ->
  codes_in_range codebooks row.
Proof.
  intros Hw H. unfold approx_dot in H.
  destruct (mapM _ (seq 0 M)) as [terms |] eqn:Et; [| discriminate].
  apply mapM_Ok_all in Et as [_ Hall].
  apply (Forall2_of_nth _ row codebooks O []); [congruence |].
  intros i Hi. destruct (Hall i) as [t Ht]; [apply in_seq; lia |].
  destruct (index (table_rows query codebooks M sub_dim) i) as [tb |] eqn:E1;
    [| discriminate].
  apply (index_Ok_lt _ _ _ []) in E1 as [_ ->]. cbn [bind] in Ht.
  destruct (index row i) as [c |] eqn:E2; [| discriminate].
  apply (index_Ok_lt _ _ _ O) in E2 as [_ ->]. cbn [bind] in Ht.
  apply (index_Ok_lt _ _ _ 0) in Ht as [Hlt _].
  rewrite table_rows_nth, length_map in Hlt by lia. exact Hlt.
Qed.

Lemma approx_dot_Raise (tables : list (list Q)) (row : list nat) (e : exn) :
  approx_dot tables row M = Raise e -> e = IndexError.
Proof.
  unfold approx_dot. intros H.
  destruct (mapM _ (seq 0 M)) as [terms | e'] eqn:Et; [discriminate |].
  injection H as <-. apply mapM_Raise_some in Et as (i & _ & Hi).
  destruct (index tables i) as [tb | e1] eqn:E1; cbn [bind] in Hi.
  - destruct (index row i) as [c | e2] eqn:E2; cbn [bind] in Hi.
    + now apply index_Raise in Hi.
    + injection Hi as <-. now apply index_Raise in E2.
  - injection Hi as <-. now apply index_Raise in E1.
Qed.

Lemma dot_products_Ok_in_range (dps : list Q) :
  dot_products (table_rows query codebooks M sub_dim) codes (length codes) M
  = Ok dps ->
  Forall (codes_in_range codebooks) codes.
Proof.
  unfold dot_products. intros H. apply mapM_Ok_all in H as [_ Hall].
  apply Forall_forall. intros row Hrow.
  destruct (In_nth codes row [] Hrow) as (r & Hr & <-).
  destruct (Hall r) as [v Hv]; [apply in_seq; lia |].
  rewrite (index_nth codes r []) in Hv by exact Hr. cbn [bind] in Hv.
  apply (approx_dot_Ok_in_range _ v); [| exact Hv].
  rewrite Forall_forall in rows_width. apply rows_width. now apply nth_In.
Qed.

Lemma dot_products_Raise (tables : list (list Q)) (n : nat) (e : exn) :
  dot_products tables codes n M = Raise e -> e = IndexError.
Proof.
  unfold dot_products. intros H.
  apply mapM_Raise_some in H as (r & _ & Hr).
  destruct (index codes r) as [row | e1] eqn:E1; cbn [bind] in Hr.
  - now apply approx_dot_Raise in Hr.
  - injection Hr as <-. now apply index_Raise in E1.
Qed.

(** X10: decoding and the lookup sums succeed on the same code matrices,
    those whose every code is below the size of its codebook; on any other
    matrix both raise IndexError. *)
Theorem decode_and_lookup_fail_together :
  (Forall (codes_in_range codebooks) codes /\
   reconstructed_pq codebooks codes M =
   Ok (map (decode_row codebooks M) codes) /\
   dot_products (table_rows query codebooks M sub_dim) codes
     (length codes) M =
   Ok (map (lookup_sum query codebooks M sub_dim) codes)) \/
  (~ Forall (codes_in_range codebooks) codes /\
   reconstructed_pq codebooks codes M = Raise IndexError /\
   dot_products (table_rows query codebooks M sub_dim) codes
     (length codes) M = Raise IndexError).
Proof.
  assert (Hok : Forall (codes_in_range codebooks) codes ->
                reconstructed_pq codebooks codes M =
                Ok (map (decode_row codebooks M) codes) /\
                dot_products (table_rows query codebooks M sub_dim) codes
                  (length codes) M =
                Ok (map (lookup_sum query codebooks M sub_dim) codes)).
  { intros Hr. split.
    - apply (reconstructed_pq_ok [] codebooks M 0); auto.
    - now apply dot_products_ok. }
  destruct (reconstructed_pq codebooks codes M) as [rows | e] eqn:Erec.
  - left. pose proof (reconstructed_pq_Ok_in_range rows Erec) as Hr.
    destruct (Hok Hr) as [_ Hd]. repeat split; auto.
    destruct (Hok Hr) as [Hrec _]. congruence.
  - right. pose proof (reconstructed_pq_Raise e Erec) as ->.
    assert (Hn : ~ Forall (codes_in_range codebooks) codes).
    { intros Hr. destruct (Hok Hr) as [Hrec _]. discriminate. }
    repeat split; auto.
    destruct (dot_products _ codes (length codes) M) as [dps | e] eqn:Ed.
    + exfalso. apply Hn. now apply (dot_products_Ok_in_range dps).
    + now rewrite (dot_products_Raise _ _ e Ed).
Qed.

End Outcomes.

Lemma decode_and_lookup_fail_together_witness :
  (Forall (codes_in_range sample_codebooks) [ [ 2; 2 ]; [ 0; 3 ] ]%nat /\
   reconstructed_pq sample_codebooks [ [ 2; 2 ]; [ 0; 3 ] ]%nat 2 =
   Ok (map (decode_row sample_codebooks 2) [ [ 2; 2 ]; [ 0; 3 ] ]%nat) /\
   dot_products (table_rows sample_query sample_codebooks 2 2)
     [ [ 2; 2 ]; [ 0; 3 ] ]%nat (length [ [ 2; 2 ]; [ 0; 3 ] ]%nat) 2 =
   Ok (map (lookup_sum sample_query sample_codebooks 2 2)
         [ [ 2; 2 ]; [ 0; 3 ] ]%nat)) \/
  (~ Forall (codes_in_range sample_codebooks) [ [ 2; 2 ]; [ 0; 3 ] ]%nat /\
   reconstructed_pq sample_codebooks [ [ 2; 2 ]; [ 0; 3 ] ]%nat 2 =
   Raise IndexError /\
   dot_products (table_rows sample_query sample_codebooks 2 2)
     [ [ 2; 2 ]; [ 0; 3 ] ]%nat (length [ [ 2; 2 ]; [ 0; 3 ] ]%nat) 2 =
   Raise IndexError).
Proof.
  apply (decode_and_lookup_fail_together sample_query sample_codebooks 2 2
           [ [ 2; 2 ]; [ 0; 3 ] ]%nat).
  - reflexivity.
  - discriminate.
  - repeat constructor.
Defined.

Lemma dot_Ok_inv (a b : sample) (v : Q) :
  dot a b = Ok v -> length a = length b /\ v = dotq a b.
Proof.
  unfold dot. destruct (length a =? length b)%nat eqn:E; [| discriminate].
  intros [= <-]. split; [now apply Nat.eqb_eq | reflexivity].
Qed.

Lemma dot_Raise (a b : sample) (e : exn) :
  dot a b = Raise e -> e = ValueError /\ length a <> length b.
Proof.
  unfold dot. destruct (length a =? length b)%nat eqn:E; [discriminate |].
  intros [= <-]. split; [reflexivity | now apply Nat.eqb_neq].
Qed.

(** X11: for codebooks that each hold a centroid, the tables are built
    exactly when there are at least [M] codebooks and every centroid of
    codebook [i] has the length of the query's sub-vector [i]; they are then
    the products of each sub-vector with each centroid.  Otherwise the cell
    raises IndexError (a codebook is missing) or ValueError (a centroid of
    another length). *)
Theorem lookup_tables_outcome (query : sample)
  (codebooks : list (list sample)) (M sub_dim : nat) :
  Forall (fun cb => cb <> []) codebooks ->
  let fits :=
    (M <= length codebooks)%nat /\
    forall i, (i < M)%nat ->
      Forall (fun c => length c = length (query_sub_at query sub_dim i))
        (nth i codebooks []) in
  (fits ->
   lookup_tables query codebooks M sub_dim =
   Ok (table_rows query codebooks M sub_dim)) /\
  (forall t, lookup_tables query codebooks M sub_dim = Ok t ->
             fits /\ t = table_rows query codebooks M sub_dim) /\
  (forall e, lookup_tables query codebooks M sub_dim = Raise e ->
             ~ fits /\ (e = IndexError \/ e = ValueError)).
Proof.
  intros _ fits.
  assert (Hok : fits ->
                lookup_tables query codebooks M sub_dim =
                Ok (table_rows query codebooks M sub_dim)).
  { intros [Hlen Hdim]. unfold lookup_tables, table_rows.
    apply mapM_ok. intros i Hi. seq_bound Hi.
    unfold query_subs. rewrite index_map_seq by exact Hi. cbn [bind].
    rewrite (index_nth codebooks i []) by lia. cbn [bind].
    unfold dot_T. apply mapM_ok. intros c Hc. unfold dot.
    specialize (Hdim i Hi). rewrite Forall_forall in Hdim.
    now rewrite (Hdim c Hc), Nat.eqb_refl. }
  split; [exact Hok |]. split.
  - intros t Ht.
    assert (Hf : fits).
    { unfold lookup_tables in Ht. apply mapM_Ok_all in Ht as [_ Hall].
      assert (Hi : forall i, (i < M)%nat ->
                (i < length codebooks)%nat /\
                Forall (fun c =>
                          length c = length (query_sub_at query sub_dim i))
                  (nth i codebooks [])).
      { intros i Hi. destruct (Hall i) as [tb Htb]; [apply in_seq; lia |].
        unfold query_subs in Htb.
        rewrite index_map_seq in Htb by exact Hi. cbn [bind] in Htb.
        destruct (index codebooks i) as [cb |] eqn:Ecb; [| discriminate].
        apply (index_Ok_lt _ _ _ []) in Ecb as [Hlt ->].
        cbn [bind] in Htb. split; [exact Hlt |].
        unfold dot_T in Htb. apply mapM_Ok_all in Htb as [_ Hc].
        apply Forall_forall. intros c Hin.
        destruct (Hc c Hin) as [v Hv].
        apply dot_Ok_inv in Hv as [Hl _]. now symmetry. }
      split; [| intros i Hlt; now apply Hi].
      destruct M as [| M']; [lia |].
      destruct (Hi M') as [Hlt _]; lia. }
    split; [exact Hf |]. rewrite (Hok Hf) in Ht. congruence.
  - intros e He. split.
    + intros Hf. rewrite (Hok Hf) in He. discriminate.
    + unfold lookup_tables in He.
      apply mapM_Raise_some in He as (i & _ & Hi).
      destruct (index (query_subs query M sub_dim) i) as [qs | e1] eqn:E1;
        cbn [bind] in Hi.
      * destruct (index codebooks i) as [cb | e2] eqn:E2; cbn [bind] in Hi.
        -- unfold dot_T in Hi. apply mapM_Raise_some in Hi as (c & _ & Hc).
           right. now apply dot_Raise in Hc.
        -- injection Hi as <-. left. now apply index_Raise in E2.
      * injection Hi as <-. left. now apply index_Raise in E1.
Qed.

Lemma lookup_tables_outcome_witness :
  let fits :=
    (2 <= length sample_codebooks)%nat /\
    forall i, (i < 2)%nat ->
      Forall (fun c => length c = length (query_sub_at sample_query 2 i))
        (nth i sample_codebooks []) in
  (fits ->
   lookup_tables sample_query sample_codebooks 2 2 =
   Ok (table_rows sample_query sample_codebooks 2 2)) /\
  (forall t, lookup_tables sample_query sample_codebooks 2 2 = Ok t ->
             fits /\ t = table_rows sample_query sample_codebooks 2 2) /\
  (forall e, lookup_tables sample_query sample_codebooks 2 2 = Raise e ->
             ~ fits /\ (e = IndexError \/ e = ValueError)).
Proof.
  apply (lookup_tables_outcome sample_query sample_codebooks 2 2).
  repeat constructor; discriminate.
Defined.

(** ** Layout of the PQ artifact *)

(** X12: with [M = 0] the PQ cell raises ZeroDivisionError.  With at least
    one column per subspace ([1 <= M <= d]) and at least as many rows as
    clusters, where the library's [fit] returns, the cell returns [M]
    codebooks, codebook [i] being the centroids fitted on subspace [i], and a
    code matrix with one row per input row and [M] columns, whose entry
    [(r, i)] is the index predicted for row [r] in subspace [i]. *)
Theorem pq_quantize_layout (fit : nat -> list sample -> KMeans)
  (predict : KMeans -> list sample -> list nat) (x : matrix) (M pc : nat) :
  let subs := subspaces x M (snd (shape x) / M) in
  (M = O -> pq_quantize fit predict x M pc = Raise ZeroDivisionError) /\
  (M <> O -> (M <= snd (shape x))%nat -> (1 <= pc <= length x)%nat ->
   exists a,
     pq_quantize fit predict x M pc = Ok a /\
     length (pq_codebooks a) = M /\
     length (pq_codes a) = length x /\
     Forall (fun row => length row = M) (pq_codes a) /\
     forall r i, (r < length x)%nat -> (i < M)%nat ->
       nth i (nth r (pq_codes a) []) O =
       nth r (predict (fit pc (nth i subs [])) (nth i subs [])) O /\
       nth i (pq_codebooks a) [] = cluster_centers_ (fit pc (nth i subs []))).
Proof.
  intros subs. split.
  - intros ->. reflexivity.
  - intros HM _ _.
    assert (Hsubs : length subs = M)
      by (unfold subs, subspaces; now rewrite length_map, length_seq).
    exists {| pq_codebooks :=
                map (fun sub => cluster_centers_ (fit pc sub)) subs;
              pq_codes :=
                stack_axis1 (length x)
                  (map (fun sub => predict (fit pc sub) sub) subs) |}.
    split; [| split; [| split; [| split]]].
    + unfold pq_quantize, shape. fold (@shape Q x).
      apply Nat.eqb_neq in HM. rewrite HM.
      rewrite !map_map. reflexivity.
    + cbn [pq_codebooks]. now rewrite length_map.
    + cbn [pq_codes]. unfold stack_axis1.
      now rewrite length_map, length_seq.
    + cbn [pq_codes]. unfold stack_axis1. apply Forall_map.
      apply Forall_forall. intros r _. now rewrite !length_map.
    + intros r i Hr Hi. cbn [pq_codes pq_codebooks]. split.
      * unfold stack_axis1. rewrite nth_map_seq by exact Hr.
        rewrite (nth_map_in_range _ _ i [] O)
          by (now rewrite length_map, Hsubs).
        now rewrite (nth_map_in_range _ subs i [] []) by lia.
      * now rewrite (nth_map_in_range _ subs i [] []) by lia.
Qed.

Lemma pq_quantize_layout_witness :
  let subs :=
    subspaces create_sample_matrix 2 (snd (shape create_sample_matrix) / 2)
  in
  (2%nat = O ->
   pq_quantize fit_first predict_assign create_sample_matrix 2 3 =
   Raise ZeroDivisionError) /\
  (2%nat <> O -> (2 <= snd (shape create_sample_matrix))%nat ->
   (1 <= 3 <= length create_sample_matrix)%nat ->
   exists a,
     pq_quantize fit_first predict_assign create_sample_matrix 2 3 = Ok a /\
     length (pq_codebooks a) = 2%nat /\
     length (pq_codes a) = length create_sample_matrix /\
     Forall (fun row => length row = 2%nat) (pq_codes a) /\
     forall r i, (r < length create_sample_matrix)%nat -> (i < 2)%nat ->
       nth i (nth r (pq_codes a) []) O =
       nth r (predict_assign (fit_first 3 (nth i subs [])) (nth i subs [])) O
       /\
       nth i (pq_codebooks a) [] =
       cluster_centers_ (fit_first 3 (nth i subs []))).
Proof.
  exact (pq_quantize_layout fit_first predict_assign create_sample_matrix
           2 3).
Defined.

(** ** Outcomes of the VQ reconstruction *)

(** X15: the VQ reconstruction cell gathers before it reshapes: it raises
    IndexError when some index is not below the size of the codebook,
    otherwise ValueError when the number of indices is not the size of the
    data, and otherwise returns the gathered centroid values laid out in the
    shape of the data. *)
Theorem vq_reconstructed_outcome (data : matrix) (a : vq_artifact) :
  let cb := vq_codebook a in
  let idx := vq_indices a in
  let rows := fst (shape data) in
  let cols := snd (shape data) in
  let valid := Forall (fun k => (k < length cb)%nat) idx in
  (valid -> length idx = (rows * cols)%nat ->
   vq_reconstructed data a =
   Ok (rows_of rows cols (map (fun k => nth k cb 0) idx))) /\
  (valid -> length idx <> (rows * cols)%nat ->
   vq_reconstructed data a = Raise ValueError) /\
  (~ valid -> vq_reconstructed data a = Raise IndexError).
Proof.
  intros cb idx rows cols valid.
  assert (Hg : valid ->
               mapM (index cb) idx = Ok (map (fun k => nth k cb 0) idx)).
  { intros Hv. apply mapM_ok. intros k Hk. apply index_nth.
    unfold valid in Hv. rewrite Forall_forall in Hv. now apply Hv. }
  unfold vq_reconstructed. fold cb idx.
  assert (Es : shape data = (rows, cols)) by reflexivity.
  split; [| split].
  - intros Hv Hl. rewrite (Hg Hv). cbn [bind]. rewrite Es. unfold reshape.
    now rewrite length_map, Hl, Nat.eqb_refl.
  - intros Hv Hl. rewrite (Hg Hv). cbn [bind]. rewrite Es. unfold reshape.
    apply Nat.eqb_neq in Hl. now rewrite length_map, Hl.
  - intros Hn.
    destruct (mapM (index cb) idx) as [flat | e] eqn:E.
    + exfalso. apply Hn. apply mapM_Ok_all in E as [_ Hall].
      apply Forall_forall. intros k Hk. destruct (Hall k Hk) as [v Hv].
      now apply (index_Ok_lt _ _ _ 0) in Hv as [Hlt _].
    + cbn [bind]. f_equal.
      now apply (mapM_index_Raise (fun _ => cb) (fun k => k)) in E.
Qed.
